(** * Deleting points by group membership

    A shallow embedding of [openvdb/points/PointDelete.h]:
    [point_delete_internal::DeleteGroupsOp], [deleteFromGroups] and
    [deleteFromGroup].

    A point tree is the list of its leaves in tree order.  A leaf carries an
    attribute set (a descriptor and one array per attribute) and its voxel
    buffer, the table of cumulative end offsets.  Every mutation of a leaf or
    of the group metadata is issued through [emit], which applies it and
    records it, so that the order of the mutations can be stated. *)

From stdpp Require Import base option list strings gmap sorting.

(** ** Template parameters

    [PointDataTreeT] fixes, through its leaf node type, the number of voxels
    of a leaf and the integer type of a voxel value.  [ValueType_modulus] is
    the number of values of that unsigned type (2^32 for PointDataIndex32):
    the conversion [ValueType(n)] of a [size_t] keeps [n] modulo it. *)

Class LeafTraits := {
  NUM_VALUES : nat;
  ValueType_modulus : nat
}.

(** ** Data model *)

(** The part of [AttributeSet::Descriptor] that deletion reads and writes: the
    group map, from a group's name to the attribute array that backs it. *)
Record Descriptor := {
  groupMap : gmap string nat
}.

(** An attribute set: the descriptor and one array per attribute, every array
    indexed by point index. *)
Record AttributeSet := {
  descriptor : Descriptor;
  arrays : list (list Z)
}.

(** A point data leaf: its attribute set and its buffer of voxel values,
    [offsets !! v] being the end (exclusive) of the points of voxel [v]. *)
Record Leaf := {
  attributeSet : AttributeSet;
  offsets : list nat
}.

(** Modelled from the spec: [MultiGroupFilter] of IndexFilter.h, built from
    the names of the included and of the excluded groups. *)
Record MultiGroupFilter := {
  mInclude : list string;
  mExclude : list string
}.

(** The three mutators that [DeleteGroupsOp] calls on a leaf. *)
Inductive LeafOp :=
  | ClearAttributes
  | ReplaceAttributeSet (newAttributeSet : AttributeSet)
  | SetOffsets (endOffsets : list nat).

(** A mutation of the tree: a mutator called on leaf [n], or a group dropped
    from the metadata of the whole tree. *)
Inductive Event :=
  | EvLeaf (n : nat) (op : LeafOp)
  | EvDropGroup (g : string).

(** The tree together with the mutations issued so far. *)
Record State := {
  tree : list Leaf;
  log : list Event
}.

(** The locals of the copy loop: the new arrays being filled, the destination
    cursor and the offset table under construction. *)
Record Cursor := {
  newAttributeArrays : list (list Z);
  attributeIndex : nat;
  endOffsets : list nat
}.

(** ** Collaborators of the deletion *)

(** Modelled from the spec: [Descriptor::hasGroup], whether a group of that
    name is declared. *)
Definition hasGroup (d : Descriptor) (g : string) : bool :=
  bool_decide (is_Some (groupMap d !! g)).

(** Modelled from the spec: group membership ([GroupHandle::get]); a group is
    a boolean-valued array, a point is a member when its entry is not zero.
    A group that is not declared has no member. *)
Definition inGroup (a : AttributeSet) (g : string) (i : nat) : bool :=
  match groupMap (descriptor a) !! g with
  | Some col =>
      match arrays a !! col with
      | Some arr =>
          match arr !! i with
          | Some v => negb (Z.eqb v 0)
          | None => false
          end
      | None => false
      end
  | None => false
  end.

(** Modelled from the spec: [MultiGroupFilter::valid]; a point matches iff it
    is in at least one included group (or no group is included) and in none of
    the excluded groups. *)
Definition MultiGroupFilter_valid
    (f : MultiGroupFilter) (a : AttributeSet) (i : nat) : bool :=
  (bool_decide (mInclude f = []) || existsb (fun g => inGroup a g i) (mInclude f))
  && negb (existsb (fun g => inGroup a g i) (mExclude f)).

(** The filter that accepts every index ([beginIndexAll()] without filter). *)
Definition NullFilter (i : nat) : bool := true.

Definition getOffset (leaf : Leaf) (v : nat) : nat := default 0 (offsets leaf !! v).

Definition lastOffset (leaf : Leaf) : nat := default 0 (last (offsets leaf)).

(** Modelled from the spec: [beginIndexAll]; the point indices of the leaf,
    from zero to the last offset, in ascending order, that pass the filter. *)
Definition beginIndexAll (leaf : Leaf) (valid : nat -> bool) : list nat :=
  filter (fun i => valid i) (seq 0 (lastOffset leaf)).

Definition voxelStart (leaf : Leaf) (v : nat) : nat :=
  match v with
  | 0 => 0
  | S v' => getOffset leaf v'
  end.

(** Modelled from the spec: [beginIndexVoxel]; the point indices of one voxel,
    from the end offset of the previous voxel to its own, in ascending order,
    that pass the filter. *)
Definition beginIndexVoxel (leaf : Leaf) (v : nat) (valid : nat -> bool) : list nat :=
  filter (fun i => valid i)
         (seq (voxelStart leaf v) (getOffset leaf v - voxelStart leaf v)).

Definition iterCount (iter : list nat) : nat := length iter.

(** Modelled from the spec: [AttributeSet(existing, size)]; a store for [size]
    points with the column layout of [existing], every entry zero. *)
Definition AttributeSet_sized (existing : AttributeSet) (size : nat) : AttributeSet :=
  {| descriptor := descriptor existing;
     arrays := (fun _ => replicate size 0%Z) <$> arrays existing |}.

(** Modelled from the spec: [AttributeArray::set(n, source, sourceIndex)];
    copies one value.  An index out of range is outside the contract of the
    array, the model leaves the array as it is; [copy_in_range] shows that the
    copy loop of a well-formed leaf stays in range. *)
Definition AttributeArray_set
    (dst : list Z) (n : nat) (src : list Z) (sourceIndex : nat) : list Z :=
  match src !! sourceIndex with
  | Some v => <[n := v]> dst
  | None => dst
  end.

(** Modelled from the spec: [clearAttributes]; all columns are dropped and the
    leaf becomes empty, with a zero-length offset table.  The descriptor is
    metadata of the whole tree and stays. *)
Definition clearAttributes (leaf : Leaf) : Leaf :=
  {| attributeSet := {| descriptor := descriptor (attributeSet leaf); arrays := [] |};
     offsets := [] |}.

(** Modelled from the spec: [replaceAttributeSet]; installs the new store. *)
Definition replaceAttributeSet (a : AttributeSet) (leaf : Leaf) : Leaf :=
  {| attributeSet := a; offsets := offsets leaf |}.

(** Modelled from the spec: [setOffsets]; installs the new offset table. *)
Definition setOffsets (o : list nat) (leaf : Leaf) : Leaf :=
  {| attributeSet := attributeSet leaf; offsets := o |}.

(** Modelled from the spec: [Descriptor::dropGroup]; removes the name from the
    group metadata. *)
Definition Descriptor_dropGroup (g : string) (d : Descriptor) : Descriptor :=
  {| groupMap := delete g (groupMap d) |}.

Definition Leaf_dropGroup (g : string) (leaf : Leaf) : Leaf :=
  {| attributeSet :=
       {| descriptor := Descriptor_dropGroup g (descriptor (attributeSet leaf));
          arrays := arrays (attributeSet leaf) |};
     offsets := offsets leaf |}.

(** ** Mutations and their record *)

Definition apply_LeafOp (op : LeafOp) (leaf : Leaf) : Leaf :=
  match op with
  | ClearAttributes => clearAttributes leaf
  | ReplaceAttributeSet a => replaceAttributeSet a leaf
  | SetOffsets o => setOffsets o leaf
  end.

(** Modelled from the spec: dropping a group is structure-wide, it reaches the
    metadata of every leaf. *)
Definition exec_event (e : Event) (t : list Leaf) : list Leaf :=
  match e with
  | EvLeaf n op => alter (apply_LeafOp op) n t
  | EvDropGroup g => Leaf_dropGroup g <$> t
  end.

Definition exec (es : list Event) (t : list Leaf) : list Leaf :=
  foldl (fun t e => exec_event e t) t es.

Definition emit (e : Event) (st : State) : State :=
  {| tree := exec_event e (tree st); log := log st ++ [e] |}.

(** Modelled from the spec: [dropGroups] of PointGroup.h; removes each name,
    one after the other, from the group metadata of the tree. *)
Definition dropGroups (groups : list string) (st : State) : State :=
  foldl (fun st g => emit (EvDropGroup g) st) st groups.

(** ** DeleteGroupsOp *)

Section Deletion.
Context `{LeafTraits}.

(** Line 162: [ValueType(attributeIndex)], the conversion of the [size_t] cursor
    to the unsigned voxel type. *)
Definition ValueType_of (n : nat) : nat := n mod ValueType_modulus.

(** Lines 109-115: the invert flag swaps the include and exclude arguments. *)
Definition DeleteGroupsOp_filter (mGroupNames : list string) (mInvert : bool)
    : MultiGroupFilter :=
  if mInvert
  then {| mInclude := mGroupNames; mExclude := [] |}
  else {| mInclude := []; mExclude := mGroupNames |}.

(** Lines 156-159: every new array receives, at the cursor, the value that the
    matching existing array holds at the source index. *)
Definition copy_point (existingAttributeArrays : list (list Z))
    (attributeIndex iter : nat) (newArrays : list (list Z)) : list (list Z) :=
  foldl (fun arrs i =>
           match arrs !! i, existingAttributeArrays !! i with
           | Some dst, Some src =>
               <[i := AttributeArray_set dst attributeIndex src iter]> arrs
           | _, _ => arrs
           end)
        newArrays (seq 0 (length existingAttributeArrays)).

(** Lines 155-161: one surviving index is copied and the cursor advances. *)
Definition copy_iter (existingAttributeArrays : list (list Z))
    (c : Cursor) (iter : nat) : Cursor :=
  {| newAttributeArrays :=
       copy_point existingAttributeArrays (attributeIndex c) iter (newAttributeArrays c);
     attributeIndex := S (attributeIndex c);
     endOffsets := endOffsets c |}.

(** Lines 153-163: the surviving indices of one voxel are copied in ascending
    order, then the cursor is appended to the offset table. *)
Definition voxel_step (leaf : Leaf) (valid : nat -> bool) (c : Cursor) (voxel : nat)
    : Cursor :=
  let c' := foldl (copy_iter (arrays (attributeSet leaf))) c
                  (beginIndexVoxel leaf voxel valid) in
  {| newAttributeArrays := newAttributeArrays c';
     attributeIndex := attributeIndex c';
     endOffsets := endOffsets c' ++ [ValueType_of (attributeIndex c')] |}.

(** Lines 132-163: the new store and offset table of a leaf that keeps
    [newSize] points. *)
Definition rebuild (leaf : Leaf) (valid : nat -> bool) (newSize : nat) : Cursor :=
  foldl (voxel_step leaf valid)
        {| newAttributeArrays := arrays (AttributeSet_sized (attributeSet leaf) newSize);
           attributeIndex := 0;
           endOffsets := [] |}
        (seq 0 NUM_VALUES).

(** Lines 118-166: the body of the loop over the leaves of a range.  The body
    first reads the leaf (lines 120-163 touch only locals) and then calls its
    mutators: none for a leaf without points, [clearAttributes] when no point
    survives, otherwise [replaceAttributeSet] followed by [setOffsets]. *)
Definition DeleteGroupsOp_body (filter : MultiGroupFilter) (leaf : Leaf) : list LeafOp :=
  let size := iterCount (beginIndexAll leaf NullFilter) in
  if decide (size = 0) then []
  else
    let valid := MultiGroupFilter_valid filter (attributeSet leaf) in
    let newSize := iterCount (beginIndexAll leaf valid) in
    if decide (newSize = 0) then [ClearAttributes]
    else
      let existingAttributeSet := attributeSet leaf in
      let c := rebuild leaf valid newSize in
      let newAttributeSet :=
        {| descriptor := descriptor (AttributeSet_sized existingAttributeSet newSize);
           arrays := newAttributeArrays c |} in
      [ReplaceAttributeSet newAttributeSet; SetOffsets (endOffsets c)].

(** The loop body run on the leaf at position [n] of the tree. *)
Definition DeleteGroupsOp_leaf (filter : MultiGroupFilter) (n : nat) (st : State)
    : State :=
  match tree st !! n with
  | None => st
  | Some leaf =>
      foldl (fun st op => emit (EvLeaf n op) st) st (DeleteGroupsOp_body filter leaf)
  end.

(** What the loop body makes of a leaf. *)
Definition compact_leaf (filter : MultiGroupFilter) (leaf : Leaf) : Leaf :=
  foldl (fun leaf op => apply_LeafOp op leaf) leaf (DeleteGroupsOp_body filter leaf).

(** Lines 105-168: [operator()] on a range of leaves. *)
Definition DeleteGroupsOp (mGroupNames : list string) (mInvert : bool)
    (range : list nat) (st : State) : State :=
  let filter := DeleteGroupsOp_filter mGroupNames mInvert in
  foldl (fun st n => DeleteGroupsOp_leaf filter n st) st range.

(** [tbb::parallel_for]: the leaf range is split into sub-ranges and the body
    runs once on each; [schedule] lists the sub-ranges in the order in which
    they run. *)
Definition parallel_for (schedule : list (list nat))
    (body : list nat -> State -> State) (st : State) : State :=
  foldl (fun st range => body range st) st schedule.

(** A schedule of a tree of [n] leaves visits every leaf exactly once. *)
Definition valid_schedule (schedule : list (list nat)) (n : nat) : Prop :=
  concat schedule ≡ₚ seq 0 n.

(** ** deleteFromGroups *)

(** Lines 196-200: the requested names that the descriptor declares. *)
Definition availableGroups_of (d : Descriptor) (groups : list string) : list string :=
  foldl (fun acc groupName => if hasGroup d groupName then acc ++ [groupName] else acc)
        [] groups.

(** Lines 181-213, under a given schedule of the parallel loop. *)
Definition deleteFromGroups_run (schedule : list (list nat))
    (groups : list string) (invert : bool) (st : State) : State :=
  match tree st with
  | [] => st
  | leaf0 :: _ =>
      let availableGroups :=
        availableGroups_of (descriptor (attributeSet leaf0)) groups in
      if decide (availableGroups = []) then st
      else
        let st' := parallel_for schedule (DeleteGroupsOp availableGroups invert) st in
        if invert then st' else dropGroups availableGroups st'
  end.

(** The schedule that runs the whole leaf range as one task. *)
Definition leafRange (pointTree : list Leaf) : list (list nat) :=
  [seq 0 (length pointTree)].

(** Lines 181-213: the tree that [deleteFromGroups] leaves.  It is stated on
    the schedule of one task; any other valid schedule leaves the same tree. *)
Definition deleteFromGroups (pointTree : list Leaf) (groups : list string)
    (invert : bool) : list Leaf :=
  tree (deleteFromGroups_run (leafRange pointTree) groups invert
          {| tree := pointTree; log := [] |}).

(** Lines 215-221. *)
Definition deleteFromGroup (pointTree : list Leaf) (group : string)
    (invert : bool) : list Leaf :=
  deleteFromGroups pointTree [group] invert.

End Deletion.

(** ** Observations on leaves and trees *)

Global Instance Descriptor_eq_dec : EqDecision Descriptor.
Proof. solve_decision. Defined.

Global Instance AttributeSet_eq_dec : EqDecision AttributeSet.
Proof. solve_decision. Defined.

Global Instance Leaf_eq_dec : EqDecision Leaf.
Proof. solve_decision. Defined.

(** The number of points a leaf holds. *)
Definition pointCount (leaf : Leaf) : nat := iterCount (beginIndexAll leaf NullFilter).

(** The point at index [i]: its value in every attribute array. *)
Definition row (leaf : Leaf) (i : nat) : list Z :=
  (fun arr => default 0%Z (arr !! i)) <$> arrays (attributeSet leaf).

(** The points of a leaf, in index order. *)
Definition points (leaf : Leaf) : list (list Z) := row leaf <$> seq 0 (pointCount leaf).

(** The points of one voxel, in index order. *)
Definition voxelPoints (leaf : Leaf) (v : nat) : list (list Z) :=
  row leaf <$> beginIndexVoxel leaf v NullFilter.

(** Membership in none, respectively in at least one, of the named groups. *)
Definition inNoGroup (leaf : Leaf) (groups : list string) (i : nat) : bool :=
  negb (existsb (fun g => inGroup (attributeSet leaf) g i) groups).

Definition inSomeGroup (leaf : Leaf) (groups : list string) (i : nat) : bool :=
  existsb (fun g => inGroup (attributeSet leaf) g i) groups.

(** Whether point [p] of a leaf is to survive a deletion, by its memberships
    alone: without inversion it is in none of the requested groups; with
    inversion it is in at least one of them, or none of the requested names
    is declared (the call then returns before any leaf is visited). *)
Definition survives (leaf : Leaf) (groups : list string) (invert : bool) (p : nat)
    : bool :=
  if invert
  then inSomeGroup leaf groups p
       || negb (existsb (hasGroup (descriptor (attributeSet leaf))) groups)
  else inNoGroup leaf groups p.

(** The values of one array at a list of indices. *)
Definition gather (src : list Z) (idx : list nat) : list Z :=
  (fun i => default 0%Z (src !! i)) <$> idx.

(** The new arrays once the indices [done] have been copied: the gathered
    values, then the entries not yet written. *)
Definition columns_after (existing : list (list Z)) (done : list nat) (size : nat)
    : list (list Z) :=
  (fun src => gather src done ++ replicate (size - length done) 0%Z) <$> existing.

(** The indices copied while the first [k] voxels are walked. *)
Definition kept (leaf : Leaf) (valid : nat -> bool) (k : nat) : list nat :=
  seq 0 k ≫= (fun v => beginIndexVoxel leaf v valid).

Fixpoint nondecreasing (l : list nat) : bool :=
  match l with
  | a :: (b :: _) as tl => (a <=? b) && nondecreasing tl
  | _ => true
  end.

Section Invariants.
Context `{LeafTraits}.

(** The invariants of the data model: the offset table is empty (a cleared
    leaf) or has one entry per voxel, it is non-decreasing, its entries are
    values of the voxel type, and every attribute array has one entry per
    point. *)
Definition leaf_wf (leaf : Leaf) : bool :=
  bool_decide (offsets leaf = [] ∨ length (offsets leaf) = NUM_VALUES)
  && nondecreasing (offsets leaf)
  && forallb (fun o => o <? ValueType_modulus) (offsets leaf)
  && forallb (fun arr => length arr =? lastOffset leaf) (arrays (attributeSet leaf)).

(** The descriptor is shared by all the leaves of a tree. *)
Definition shared_descriptor (t : list Leaf) : bool :=
  match t with
  | [] => true
  | leaf0 :: rest =>
      forallb (fun leaf =>
                 bool_decide (descriptor (attributeSet leaf)
                              = descriptor (attributeSet leaf0))) rest
  end.

Definition tree_wf (t : list Leaf) : bool :=
  forallb leaf_wf t && shared_descriptor t.

End Invariants.

(** The mutator calls that the record holds for leaf [n], in order. *)
Definition leaf_events (n : nat) (es : list Event) : list LeafOp :=
  omap (fun e => match e with
                 | EvLeaf m op => if decide (m = n) then Some op else None
                 | EvDropGroup _ => None
                 end) es.

Definition is_leaf_event (e : Event) : bool :=
  match e with EvLeaf _ _ => true | EvDropGroup _ => false end.

(** ** Closed forms used in the statements *)

(** The leaf that the copy loop builds from a well-formed leaf: every array
    gathered at the surviving indices, every offset the number of survivors
    below the old offset. *)
Definition rebuilt_leaf `{LeafTraits} (leaf : Leaf) (valid : nat -> bool) : Leaf :=
  {| attributeSet :=
       {| descriptor := descriptor (attributeSet leaf);
          arrays := (fun src => gather src (beginIndexAll leaf valid))
                      <$> arrays (attributeSet leaf) |};
     offsets := (fun v => length (filter (fun i => valid i) (seq 0 (getOffset leaf v))))
                  <$> seq 0 NUM_VALUES |}.

(** The number of survivors below an index. *)
Definition survivors_below (valid : nat -> bool) (x : nat) : nat :=
  length (filter (fun i => valid i) (seq 0 x)).

(** All the names of a list dropped from the metadata of a leaf. *)
Definition Leaf_dropGroups (groups : list string) (leaf : Leaf) : Leaf :=
  foldl (fun leaf g => Leaf_dropGroup g leaf) leaf groups.

(** The requested names that the tree declares, as [deleteFromGroups]
    resolves them against its first leaf. *)
Definition resolved (t : list Leaf) (groups : list string) : list string :=
  match t with
  | [] => []
  | leaf0 :: _ => availableGroups_of (descriptor (attributeSet leaf0)) groups
  end.

(** The indices of the points of [leaf] that [deleteFromGroups] keeps. *)
Definition survivors (t : list Leaf) (groups : list string) (invert : bool)
    (leaf : Leaf) : list nat :=
  if decide (resolved t groups = []) then seq 0 (pointCount leaf)
  else beginIndexAll leaf
         (MultiGroupFilter_valid (DeleteGroupsOp_filter (resolved t groups) invert)
                                 (attributeSet leaf)).

(** ** A small instance *)

Module Demo.

(** A leaf type of four voxels with 8-bit voxel values. *)
Definition traits : LeafTraits := {| NUM_VALUES := 4; ValueType_modulus := 256 |}.

Definition desc : Descriptor := {| groupMap := {[ "A"%string := 1 ]} |}.

(** Four points over the voxels (1, 0, 2, 1 points); array 0 is a data
    attribute, array 1 backs group A, whose members are points 0 and 2. *)
Definition leaf4 : Leaf :=
  {| attributeSet := {| descriptor := desc;
                        arrays := [[10; 11; 12; 13]; [1; 0; 1; 0]]%Z |};
     offsets := [1; 1; 3; 4] |}.

(** Four points over the voxels (2, 0, 0, 2 points), all of them members of
    group A. *)
Definition leafAll : Leaf :=
  {| attributeSet := {| descriptor := desc;
                        arrays := [[20; 21; 22; 23]; [1; 1; 1; 1]]%Z |};
     offsets := [2; 2; 2; 4] |}.

(** A leaf without points. *)
Definition leafEmpty : Leaf :=
  {| attributeSet := {| descriptor := desc; arrays := [[]; []] |};
     offsets := [0; 0; 0; 0] |}.

Definition tree3 : list Leaf := [leaf4; leafAll; leafEmpty].

End Demo.

(** ** An instance with three groups *)

Module DemoGroups.

(** Groups A, B and C on arrays 1, 2 and 3; no point is in group C. *)
Definition descABC : Descriptor :=
  {| groupMap := <["A"%string := 1]> (<["B"%string := 2]> {[ "C"%string := 3 ]}) |}.

(** Four points over the voxels (1, 0, 2, 1 points); A holds points 0 and 2,
    B holds points 2 and 3. *)
Definition leafAB : Leaf :=
  {| attributeSet :=
       {| descriptor := descABC;
          arrays := [[10; 11; 12; 13]; [1; 0; 1; 0]; [0; 0; 1; 1]; [0; 0; 0; 0]]%Z |};
     offsets := [1; 1; 3; 4] |}.

(** Two points in the second voxel; both are in A, the second is in B too. *)
Definition leafA : Leaf :=
  {| attributeSet :=
       {| descriptor := descABC;
          arrays := [[20; 21]; [1; 1]; [0; 1]; [0; 0]]%Z |};
     offsets := [0; 2; 2; 2] |}.

Definition tree2 : list Leaf := [leafAB; leafA].

End DemoGroups.

(** * Proofs *)

(** ** Lists *)

Section ListFacts.

Lemma filter_seq_app (P : nat -> Prop) `{!∀ x, Decision (P x)} a b c :
  a ≤ b -> b ≤ c ->
  filter P (seq a (b - a)) ++ filter P (seq b (c - b)) = filter P (seq a (c - a)).
Proof.
  intros Hab Hbc. rewrite <- filter_app.
  replace (c - a) with ((b - a) + (c - b)) by lia.
  rewrite seq_app. do 3 f_equal. lia.
Qed.

Lemma foldl_seq_S {A} (f : A -> nat -> A) (a : A) (n : nat) :
  foldl f a (seq 0 (S n)) = f (foldl f a (seq 0 n)) n.
Proof. rewrite seq_S, foldl_app. reflexivity. Qed.

Lemma foldl_concat {A B} (f : A -> B -> A) (a : A) (ls : list (list B)) :
  foldl (fun a l => foldl f a l) a ls = foldl f a (concat ls).
Proof.
  revert a. induction ls as [|l ls IH]; intros a; simpl; [done|].
  rewrite foldl_app. apply IH.
Qed.

End ListFacts.

Section CopyLoop.
Context `{LeafTraits}.

Lemma copy_point_prefix existing k it new n :
  length new = length existing -> n ≤ length existing ->
  foldl (fun arrs i =>
           match arrs !! i, existing !! i with
           | Some dst, Some src => <[i := AttributeArray_set dst k src it]> arrs
           | _, _ => arrs
           end) new (seq 0 n)
  = zip_with (fun dst src => AttributeArray_set dst k src it) (take n new) (take n existing)
    ++ drop n new.
Proof.
  intros Hlen. induction n as [|n IH]; intros Hn.
  - simpl. by rewrite drop_0.
  - rewrite foldl_seq_S, IH by lia. clear IH.
    destruct (lookup_lt_is_Some_2 new n) as [dst Hdst]; [lia|].
    destruct (lookup_lt_is_Some_2 existing n) as [src Hsrc]; [lia|].
    assert (Hzl : length (zip_with (fun dst src => AttributeArray_set dst k src it)
                            (take n new) (take n existing)) = n).
    { rewrite length_zip_with_l_eq; rewrite !length_take; lia. }
    rewrite lookup_app_r by lia. rewrite Hzl, Nat.sub_diag.
    rewrite lookup_drop, Nat.add_0_r, Hdst, Hsrc.
    rewrite (take_S_r new n dst), (take_S_r existing n src) by done.
    rewrite zip_with_app by (rewrite !length_take; lia).
    rewrite <- (assoc_L (++)). simpl.
    rewrite (drop_S new dst n) by done.
    replace n with (length (zip_with (fun dst src => AttributeArray_set dst k src it)
                            (take n new) (take n existing)) + 0) at 1 by lia.
    by rewrite insert_app_r.
Qed.

Lemma copy_point_zip existing k it new :
  length new = length existing ->
  copy_point existing k it new
  = zip_with (fun dst src => AttributeArray_set dst k src it) new existing.
Proof.
  intros Hlen. unfold copy_point. rewrite copy_point_prefix by lia.
  rewrite <- Hlen at 1. rewrite !firstn_all. rewrite <- Hlen, drop_all. by rewrite app_nil_r.
Qed.

End CopyLoop.

(** ** The copy loop *)

Section CopyInvariant.
Context `{LeafTraits}.

Lemma length_gather src idx : length (gather src idx) = length idx.
Proof. unfold gather. by rewrite length_fmap. Qed.

Lemma gather_app src i1 i2 : gather src (i1 ++ i2) = gather src i1 ++ gather src i2.
Proof. unfold gather. by rewrite fmap_app. Qed.

Lemma length_columns_after existing done size :
  length (columns_after existing done size) = length existing.
Proof. unfold columns_after. by rewrite length_fmap. Qed.

(** One copy extends the gathered prefix of every column by one value. *)
Lemma copy_point_columns existing done size it :
  length done < size ->
  Forall (fun src : list Z => it < length src) existing ->
  copy_point existing (length done) it (columns_after existing done size)
  = columns_after existing (done ++ [it]) size.
Proof.
  intros Hlt Hall.
  rewrite copy_point_zip by apply length_columns_after.
  unfold columns_after. rewrite zip_with_fmap_l, zip_with_diag.
  apply Forall_fmap_ext. eapply Forall_impl; [exact Hall|].
  intros src Hsrc. simpl.
  destruct (lookup_lt_is_Some_2 src it Hsrc) as [v Hv].
  unfold AttributeArray_set. rewrite Hv.
  rewrite gather_app, length_app. simpl.
  replace (size - length done) with (S (size - (length done + 1))) by lia.
  rewrite <- (assoc_L (++)). simpl.
  replace (length done) with (length (gather src done) + 0) at 1
    by (rewrite length_gather; lia).
  rewrite insert_app_r. simpl. unfold gather. simpl. by rewrite Hv.
Qed.

(** The copy loop of one voxel. *)
Lemma copy_iter_fold existing size eo its : forall done,
  length done + length its ≤ size ->
  Forall (fun it => Forall (fun src : list Z => it < length src) existing) its ->
  foldl (copy_iter existing)
        {| newAttributeArrays := columns_after existing done size;
           attributeIndex := length done; endOffsets := eo |} its
  = {| newAttributeArrays := columns_after existing (done ++ its) size;
       attributeIndex := length (done ++ its); endOffsets := eo |}.
Proof.
  induction its as [|it its IH]; intros done Hlen Hall.
  - simpl. by rewrite app_nil_r.
  - simpl in Hlen. inversion Hall as [|? ? Hit Hits]; subst. simpl.
    unfold copy_iter at 2. simpl.
    rewrite copy_point_columns by (done || lia).
    replace (S (length done)) with (length (done ++ [it]))
      by (rewrite length_app; simpl; lia).
    rewrite IH; [|rewrite length_app; simpl; lia|done].
    by rewrite <- (assoc_L (++)).
Qed.

Lemma kept_S leaf valid k :
  kept leaf valid (S k) = kept leaf valid k ++ beginIndexVoxel leaf k valid.
Proof. unfold kept. rewrite seq_S, bind_app. simpl. by rewrite app_nil_r. Qed.

Lemma rebuild_prefix leaf valid size k :
  length (kept leaf valid k) ≤ size ->
  Forall (fun it => Forall (fun src : list Z => it < length src)
                           (arrays (attributeSet leaf))) (kept leaf valid k) ->
  foldl (voxel_step leaf valid)
        {| newAttributeArrays := arrays (AttributeSet_sized (attributeSet leaf) size);
           attributeIndex := 0; endOffsets := [] |} (seq 0 k)
  = {| newAttributeArrays := columns_after (arrays (attributeSet leaf)) (kept leaf valid k) size;
       attributeIndex := length (kept leaf valid k);
       endOffsets := (fun v => ValueType_of (length (kept leaf valid (S v)))) <$> seq 0 k |}.
Proof.
  induction k as [|k IH]; intros Hlen Hall.
  - simpl. unfold columns_after. simpl. f_equal.
    apply list_fmap_ext. intros _ src _. simpl. by rewrite Nat.sub_0_r.
  - rewrite kept_S in Hlen, Hall. rewrite length_app in Hlen.
    apply Forall_app in Hall as [Hall1 Hall2].
    rewrite foldl_seq_S, IH by (done || lia).
    unfold voxel_step. rewrite copy_iter_fold by (done || lia).
    rewrite seq_S, fmap_app. cbn [fmap list_fmap Nat.add].
    rewrite !kept_S. reflexivity.
Qed.

End CopyInvariant.

(** ** The offset table *)

Section OffsetTable.
Context `{LeafTraits}.

Lemma nondecreasing_adjacent l : nondecreasing l = true ->
  forall i a b, l !! i = Some a -> l !! S i = Some b -> a ≤ b.
Proof.
  induction l as [|x l IH]; intros Hs i a b Ha Hb; [done|].
  destruct l as [|y l]; [done|].
  simpl in Hs. apply andb_prop in Hs as [Hxy Hs].
  destruct i as [|i]; simpl in Ha, Hb.
  - inversion Ha; inversion Hb; subst. by apply Nat.leb_le in Hxy.
  - by apply (IH Hs i).
Qed.

Lemma nondecreasing_lookup l : nondecreasing l = true ->
  forall i j a b, i ≤ j -> l !! i = Some a -> l !! j = Some b -> a ≤ b.
Proof.
  intros Hs i j a b Hij Ha. revert b.
  induction Hij as [|j Hij IH]; intros b Hb.
  - rewrite Ha in Hb. inversion Hb; lia.
  - destruct (lookup_lt_is_Some_2 l j) as [c Hc].
    { apply lookup_lt_Some in Hb. lia. }
    specialize (IH c Hc).
    pose proof (nondecreasing_adjacent l Hs j c b Hc Hb). lia.
Qed.

Lemma lastOffset_voxelStart leaf :
  lastOffset leaf = voxelStart leaf (length (offsets leaf)).
Proof.
  unfold lastOffset, voxelStart, getOffset. rewrite last_lookup.
  by destruct (offsets leaf).
Qed.

Lemma voxelStart_le leaf v :
  nondecreasing (offsets leaf) = true -> v < length (offsets leaf) ->
  voxelStart leaf v ≤ getOffset leaf v.
Proof.
  intros Hs Hv. destruct v as [|v]; simpl; [lia|]. unfold getOffset.
  destruct (lookup_lt_is_Some_2 (offsets leaf) v) as [a Ha]; [lia|].
  destruct (lookup_lt_is_Some_2 (offsets leaf) (S v)) as [b Hb]; [lia|].
  rewrite Ha, Hb. simpl. apply (nondecreasing_adjacent _ Hs v a b); done.
Qed.

Lemma getOffset_le_last leaf v :
  nondecreasing (offsets leaf) = true -> getOffset leaf v ≤ lastOffset leaf.
Proof.
  intros Hs. unfold getOffset, lastOffset. rewrite last_lookup.
  destruct (offsets leaf !! v) as [a|] eqn:Ha; simpl; [|lia].
  pose proof (lookup_lt_Some _ _ _ Ha) as Hv.
  destruct (lookup_lt_is_Some_2 (offsets leaf) (pred (length (offsets leaf)))) as [b Hb];
    [lia|].
  rewrite Hb. simpl.
  apply (nondecreasing_lookup _ Hs v (pred (length (offsets leaf))) a b); [lia|done|done].
Qed.

Lemma voxelStart_le_last leaf v :
  nondecreasing (offsets leaf) = true -> voxelStart leaf v ≤ lastOffset leaf.
Proof.
  intros Hs. destruct v; simpl; [lia|]. by apply getOffset_le_last.
Qed.

(** Walking the voxels in order enumerates the point indices in ascending
    order: the voxel ranges tile the index range of the leaf. *)
Lemma kept_filter leaf valid k :
  nondecreasing (offsets leaf) = true -> k ≤ length (offsets leaf) ->
  kept leaf valid k = filter (fun i => valid i) (seq 0 (voxelStart leaf k)).
Proof.
  intros Hs. induction k as [|k IH]; intros Hk; [done|].
  rewrite kept_S, IH by lia. unfold beginIndexVoxel.
  pose proof (voxelStart_le leaf k Hs ltac:(lia)) as Hle.
  change (voxelStart leaf (S k)) with (getOffset leaf k).
  rewrite <- (Nat.sub_0_r (voxelStart leaf k)) at 1.
  rewrite <- (Nat.sub_0_r (getOffset leaf k)) at 2.
  apply filter_seq_app; lia.
Qed.

Lemma kept_all leaf valid :
  nondecreasing (offsets leaf) = true ->
  kept leaf valid (length (offsets leaf)) = beginIndexAll leaf valid.
Proof.
  intros Hs. rewrite kept_filter by done. unfold beginIndexAll.
  by rewrite lastOffset_voxelStart.
Qed.

Lemma filter_Forall_id {A} (P : A -> Prop) `{!∀ x, Decision (P x)} (l : list A) :
  Forall P l -> filter P l = l.
Proof.
  induction 1 as [|x l Hx _ IH]; [done|].
  rewrite filter_cons_True by done. by rewrite IH.
Qed.

Lemma beginIndexAll_NullFilter leaf :
  beginIndexAll leaf NullFilter = seq 0 (lastOffset leaf).
Proof.
  unfold beginIndexAll. apply filter_Forall_id.
  apply Forall_forall. intros; exact I.
Qed.

Lemma pointCount_lastOffset leaf : pointCount leaf = lastOffset leaf.
Proof.
  unfold pointCount, iterCount. by rewrite beginIndexAll_NullFilter, length_seq.
Qed.

Lemma elem_of_beginIndexAll leaf valid i :
  i ∈ beginIndexAll leaf valid <-> i < pointCount leaf ∧ valid i = true.
Proof.
  rewrite pointCount_lastOffset. unfold beginIndexAll.
  rewrite list_elem_of_filter, elem_of_seq, Is_true_true. intuition lia.
Qed.

End OffsetTable.

(** ** The loop body on one leaf *)

Section LeafCompaction.
Context `{LeafTraits}.

Lemma leaf_wf_unfold leaf : leaf_wf leaf = true ->
  (offsets leaf = [] ∨ length (offsets leaf) = NUM_VALUES)
  ∧ nondecreasing (offsets leaf) = true
  ∧ Forall (fun o => o < ValueType_modulus) (offsets leaf)
  ∧ Forall (fun arr : list Z => length arr = lastOffset leaf) (arrays (attributeSet leaf)).
Proof.
  unfold leaf_wf. rewrite !andb_true_iff, bool_decide_eq_true, !forallb_forall.
  intros [[[? ?] Hm] Ha]. repeat split; try done.
  - apply Forall_forall. intros o Ho. apply Nat.ltb_lt, Hm. by apply list_elem_of_In.
  - apply Forall_forall. intros a Hin. apply Nat.eqb_eq, Ha. by apply list_elem_of_In.
Qed.

Lemma leaf_wf_intro leaf :
  (offsets leaf = [] ∨ length (offsets leaf) = NUM_VALUES) ->
  nondecreasing (offsets leaf) = true ->
  Forall (fun o => o < ValueType_modulus) (offsets leaf) ->
  Forall (fun arr : list Z => length arr = lastOffset leaf) (arrays (attributeSet leaf)) ->
  leaf_wf leaf = true.
Proof.
  intros ? ? Hm Ha. unfold leaf_wf.
  rewrite !andb_true_iff, bool_decide_eq_true, !forallb_forall. repeat split; try done.
  - intros o Ho. apply Nat.ltb_lt. rewrite Forall_forall in Hm. by apply Hm, list_elem_of_In.
  - intros a Hin. apply Nat.eqb_eq. rewrite Forall_forall in Ha. by apply Ha, list_elem_of_In.
Qed.

Lemma getOffset_bounded leaf v :
  Forall (fun o => o < ValueType_modulus) (offsets leaf) ->
  v < length (offsets leaf) -> getOffset leaf v < ValueType_modulus.
Proof.
  intros Hm Hv. unfold getOffset.
  destruct (lookup_lt_is_Some_2 _ _ Hv) as [o Ho]. rewrite Ho. simpl.
  rewrite Forall_forall in Hm. apply Hm. by eapply list_elem_of_lookup_2.
Qed.

(** On a well-formed leaf the copy loop stays within the source and the
    destination arrays. *)
Lemma copy_in_range leaf valid :
  leaf_wf leaf = true ->
  Forall (fun it => Forall (fun src : list Z => it < length src)
                           (arrays (attributeSet leaf)))
         (kept leaf valid (length (offsets leaf)))
  ∧ length (kept leaf valid (length (offsets leaf))) = iterCount (beginIndexAll leaf valid).
Proof.
  intros Hwf. destruct (leaf_wf_unfold _ Hwf) as (_ & Hs & _ & Ha).
  rewrite kept_all by done. split; [|done].
  apply Forall_forall. intros i Hi.
  apply elem_of_beginIndexAll in Hi as [Hi _]. rewrite pointCount_lastOffset in Hi.
  eapply Forall_impl; [exact Ha|]. simpl. intros src ->. done.
Qed.

(** The closed form of the copy loop on a well-formed leaf with points. *)
Lemma rebuild_wf leaf valid :
  leaf_wf leaf = true -> length (offsets leaf) = NUM_VALUES ->
  rebuild leaf valid (iterCount (beginIndexAll leaf valid))
  = {| newAttributeArrays := arrays (attributeSet (rebuilt_leaf leaf valid));
       attributeIndex := length (beginIndexAll leaf valid);
       endOffsets := offsets (rebuilt_leaf leaf valid) |}.
Proof.
  intros Hwf HN. destruct (leaf_wf_unfold _ Hwf) as (_ & Hs & Hm & Ha).
  destruct (copy_in_range leaf valid Hwf) as [Hrange Hlen].
  rewrite HN in Hrange, Hlen.
  unfold rebuild. rewrite rebuild_prefix by (done || lia).
  rewrite <- HN at 1 2. rewrite kept_all by done. f_equal.
  - unfold columns_after, rebuilt_leaf. simpl. apply list_fmap_ext. intros _ src _.
    unfold iterCount. by rewrite Nat.sub_diag, app_nil_r.
  - unfold rebuilt_leaf. simpl. apply list_fmap_ext. intros j v Hv.
    apply lookup_seq in Hv as [-> Hv]. simpl.
    rewrite kept_filter by (done || lia).
    change (voxelStart leaf (S j)) with (getOffset leaf j).
    unfold ValueType_of. apply Nat.mod_small.
    pose proof (length_filter (fun i => valid i) (seq 0 (getOffset leaf j))) as Hle.
    rewrite length_seq in Hle.
    pose proof (getOffset_bounded leaf j Hm ltac:(lia)). lia.
Qed.

Lemma wf_offsets_length leaf :
  leaf_wf leaf = true -> pointCount leaf ≠ 0 -> length (offsets leaf) = NUM_VALUES.
Proof.
  intros Hwf Hne. destruct (leaf_wf_unfold _ Hwf) as ([Hnil | HN] & _); [|done].
  rewrite pointCount_lastOffset in Hne. unfold lastOffset in Hne.
  rewrite Hnil in Hne. done.
Qed.

(** The three outcomes of the loop body. *)
Lemma body_skip f leaf :
  pointCount leaf = 0 -> DeleteGroupsOp_body f leaf = [].
Proof.
  intros Hz. unfold DeleteGroupsOp_body. fold (pointCount leaf).
  by rewrite decide_True.
Qed.

Lemma body_clear f leaf :
  pointCount leaf ≠ 0 ->
  beginIndexAll leaf (MultiGroupFilter_valid f (attributeSet leaf)) = [] ->
  DeleteGroupsOp_body f leaf = [ClearAttributes].
Proof.
  intros Hne Hnil. unfold DeleteGroupsOp_body. fold (pointCount leaf).
  rewrite decide_False by done. rewrite Hnil. by rewrite decide_True.
Qed.

Lemma body_rebuild f leaf :
  leaf_wf leaf = true -> pointCount leaf ≠ 0 ->
  beginIndexAll leaf (MultiGroupFilter_valid f (attributeSet leaf)) ≠ [] ->
  DeleteGroupsOp_body f leaf
  = [ReplaceAttributeSet
       (attributeSet (rebuilt_leaf leaf (MultiGroupFilter_valid f (attributeSet leaf))));
     SetOffsets (offsets (rebuilt_leaf leaf (MultiGroupFilter_valid f (attributeSet leaf))))].
Proof.
  intros Hwf Hne Hsome. unfold DeleteGroupsOp_body. fold (pointCount leaf).
  rewrite decide_False by done.
  rewrite decide_False by (unfold iterCount; by destruct (beginIndexAll _ _)).
  rewrite rebuild_wf by (done || by apply wf_offsets_length). reflexivity.
Qed.

Lemma compact_leaf_cases f leaf :
  leaf_wf leaf = true ->
  let valid := MultiGroupFilter_valid f (attributeSet leaf) in
  (pointCount leaf = 0 ∧ compact_leaf f leaf = leaf)
  ∨ (pointCount leaf ≠ 0 ∧ beginIndexAll leaf valid = []
     ∧ compact_leaf f leaf = clearAttributes leaf)
  ∨ (pointCount leaf ≠ 0 ∧ beginIndexAll leaf valid ≠ []
     ∧ length (offsets leaf) = NUM_VALUES
     ∧ compact_leaf f leaf = rebuilt_leaf leaf valid).
Proof.
  intros Hwf valid. unfold compact_leaf.
  destruct (decide (pointCount leaf = 0)) as [Hz|Hnz].
  { left. by rewrite body_skip. }
  right. destruct (decide (beginIndexAll leaf valid = [])) as [Hnil|Hsome].
  { left. by rewrite body_clear. }
  right. rewrite body_rebuild by done. repeat split; try done.
  by apply wf_offsets_length.
Qed.

End LeafCompaction.

Section RebuiltLeaf.
Context `{LeafTraits}.

Lemma nondecreasing_intro l :
  (forall i a b, l !! i = Some a -> l !! S i = Some b -> a ≤ b) ->
  nondecreasing l = true.
Proof.
  induction l as [|x l IH]; intros Hadj; [done|].
  destruct l as [|y l]; [done|].
  change (((x <=? y) && nondecreasing (y :: l)) = true).
  apply andb_true_intro. split.
  - apply Nat.leb_le. by apply (Hadj 0).
  - apply IH. intros i a b Ha Hb. by apply (Hadj (S i)).
Qed.

Lemma survivors_below_mono valid x y :
  x ≤ y -> survivors_below valid x ≤ survivors_below valid y.
Proof.
  intros Hxy. unfold survivors_below.
  replace y with (x + (y - x)) by lia.
  rewrite seq_app, filter_app, length_app. lia.
Qed.

Lemma survivors_below_le valid x : survivors_below valid x ≤ x.
Proof.
  unfold survivors_below.
  pose proof (length_filter (fun i => valid i) (seq 0 x)) as Hle.
  by rewrite length_seq in Hle.
Qed.

Lemma getOffset_rebuilt leaf valid v :
  v < NUM_VALUES ->
  getOffset (rebuilt_leaf leaf valid) v = survivors_below valid (getOffset leaf v).
Proof.
  intros Hv. unfold getOffset at 1. unfold rebuilt_leaf. simpl.
  rewrite list_lookup_fmap, lookup_seq_lt by done. reflexivity.
Qed.

Lemma voxelStart_rebuilt leaf valid v :
  v ≤ NUM_VALUES ->
  voxelStart (rebuilt_leaf leaf valid) v = survivors_below valid (voxelStart leaf v).
Proof.
  intros Hv. destruct v as [|v]; [done|].
  unfold voxelStart. apply getOffset_rebuilt. lia.
Qed.

Lemma length_offsets_rebuilt leaf valid :
  length (offsets (rebuilt_leaf leaf valid)) = NUM_VALUES.
Proof. unfold rebuilt_leaf. simpl. by rewrite length_fmap, length_seq. Qed.

Lemma lastOffset_rebuilt leaf valid :
  length (offsets leaf) = NUM_VALUES ->
  lastOffset (rebuilt_leaf leaf valid) = length (beginIndexAll leaf valid).
Proof.
  intros HN. rewrite lastOffset_voxelStart, length_offsets_rebuilt.
  rewrite voxelStart_rebuilt by lia. rewrite <- HN.
  by rewrite <- lastOffset_voxelStart.
Qed.

Lemma row_rebuilt leaf valid k i :
  beginIndexAll leaf valid !! k = Some i ->
  row (rebuilt_leaf leaf valid) k = row leaf i.
Proof.
  intros Hk. unfold row, rebuilt_leaf. simpl.
  rewrite <- list_fmap_compose. apply list_fmap_ext. intros _ src _. simpl.
  unfold gather. by rewrite list_lookup_fmap, Hk.
Qed.

Lemma rows_rebuilt leaf valid :
  row (rebuilt_leaf leaf valid) <$> seq 0 (length (beginIndexAll leaf valid))
  = row leaf <$> beginIndexAll leaf valid.
Proof.
  apply list_eq. intros k. rewrite !list_lookup_fmap.
  destruct (beginIndexAll leaf valid !! k) as [i|] eqn:Hk.
  - rewrite lookup_seq_lt by (by eapply lookup_lt_Some). simpl.
    f_equal. by apply row_rebuilt.
  - rewrite lookup_seq_ge by (by apply lookup_ge_None). done.
Qed.

Lemma points_rebuilt leaf valid :
  length (offsets leaf) = NUM_VALUES ->
  points (rebuilt_leaf leaf valid) = row leaf <$> beginIndexAll leaf valid.
Proof.
  intros HN. unfold points.
  rewrite pointCount_lastOffset, lastOffset_rebuilt by done. apply rows_rebuilt.
Qed.

Lemma filter_seq_0_app (P : nat -> Prop) `{!∀ x, Decision (P x)} b c :
  b ≤ c -> filter P (seq 0 c) = filter P (seq 0 b) ++ filter P (seq b (c - b)).
Proof.
  intros Hbc. rewrite <- filter_app. f_equal.
  replace c with (b + (c - b)) at 1 by lia. by rewrite seq_app.
Qed.

(** The survivors of one voxel are a segment of the survivors of the leaf. *)
Lemma beginIndexVoxel_segment leaf valid v :
  nondecreasing (offsets leaf) = true -> v < length (offsets leaf) ->
  beginIndexVoxel leaf v valid
  = take (survivors_below valid (getOffset leaf v) - survivors_below valid (voxelStart leaf v))
         (drop (survivors_below valid (voxelStart leaf v)) (beginIndexAll leaf valid)).
Proof.
  intros Hs Hv.
  pose proof (voxelStart_le leaf v Hs Hv) as Hle.
  pose proof (getOffset_le_last leaf v Hs) as Hlast.
  unfold beginIndexAll, beginIndexVoxel, survivors_below.
  rewrite (filter_seq_0_app _ (getOffset leaf v) (lastOffset leaf)) by done.
  rewrite (filter_seq_0_app _ (voxelStart leaf v) (getOffset leaf v)) by done.
  rewrite <- (assoc_L (++)), drop_app_length, length_app.
  replace (_ + _ - _)
    with (length (filter (fun i => valid i)
                    (seq (voxelStart leaf v) (getOffset leaf v - voxelStart leaf v))))
    by lia.
  by rewrite take_app_length.
Qed.

Lemma voxelPoints_rebuilt leaf valid v :
  nondecreasing (offsets leaf) = true -> length (offsets leaf) = NUM_VALUES ->
  v < NUM_VALUES ->
  voxelPoints (rebuilt_leaf leaf valid) v = row leaf <$> beginIndexVoxel leaf v valid.
Proof.
  intros Hs HN Hv. unfold voxelPoints.
  rewrite (beginIndexVoxel_segment leaf valid v) by (done || lia).
  rewrite fmap_take, fmap_drop, <- rows_rebuilt, <- fmap_drop, <- fmap_take.
  f_equal.
  pose proof (voxelStart_le leaf v Hs ltac:(lia)) as Hle.
  pose proof (getOffset_le_last leaf v Hs) as Hlast.
  unfold beginIndexVoxel. rewrite filter_Forall_id by (apply Forall_forall; intros; exact I).
  rewrite getOffset_rebuilt, voxelStart_rebuilt by lia.
  pose proof (survivors_below_mono valid _ _ Hle) as H1.
  pose proof (survivors_below_mono valid _ _ Hlast) as H2.
  fold (survivors_below valid (lastOffset leaf)) in *.
  change (length (beginIndexAll leaf valid)) with (survivors_below valid (lastOffset leaf)).
  rewrite drop_seq, take_seq. f_equal; lia.
Qed.

Lemma rebuilt_leaf_wf leaf valid :
  leaf_wf leaf = true -> length (offsets leaf) = NUM_VALUES ->
  leaf_wf (rebuilt_leaf leaf valid) = true.
Proof.
  intros Hwf HN. destruct (leaf_wf_unfold _ Hwf) as (_ & Hs & Hm & Ha).
  apply leaf_wf_intro.
  - right. apply length_offsets_rebuilt.
  - apply nondecreasing_intro. intros i a b Hi HSi.
    unfold rebuilt_leaf in Hi, HSi. simpl in Hi, HSi.
    rewrite list_lookup_fmap in Hi, HSi.
    destruct (seq 0 NUM_VALUES !! i) as [x|] eqn:Hx; [|done].
    destruct (seq 0 NUM_VALUES !! S i) as [y|] eqn:Hy; [|done].
    apply lookup_seq in Hx as [-> Hx]. apply lookup_seq in Hy as [-> Hy].
    simpl in Hi, HSi. inversion Hi; inversion HSi; subst.
    apply (survivors_below_mono valid).
    pose proof (voxelStart_le leaf (S i) Hs ltac:(lia)). done.
  - apply Forall_forall. intros o Ho.
    unfold rebuilt_leaf in Ho. simpl in Ho.
    apply list_elem_of_fmap in Ho as (v & -> & Hv). apply elem_of_seq in Hv.
    pose proof (survivors_below_le valid (getOffset leaf v)).
    pose proof (getOffset_bounded leaf v Hm ltac:(lia)).
    unfold survivors_below in *. lia.
  - rewrite lastOffset_rebuilt by done. unfold rebuilt_leaf. simpl.
    apply Forall_fmap, Forall_forall. intros src _. simpl. apply length_gather.
Qed.

End RebuiltLeaf.

Section CompactLeaf.
Context `{LeafTraits}.

Lemma compact_descriptor f leaf :
  descriptor (attributeSet (compact_leaf f leaf)) = descriptor (attributeSet leaf).
Proof.
  unfold compact_leaf, DeleteGroupsOp_body.
  repeat case_decide; reflexivity.
Qed.

Lemma points_empty leaf : pointCount leaf = 0 -> points leaf = [].
Proof. intros Hz. unfold points. by rewrite Hz. Qed.

Lemma beginIndexAll_empty leaf valid : pointCount leaf = 0 -> beginIndexAll leaf valid = [].
Proof.
  rewrite pointCount_lastOffset. intros Hz. unfold beginIndexAll. by rewrite Hz.
Qed.

Lemma pointCount_clear leaf : pointCount (clearAttributes leaf) = 0.
Proof. by rewrite pointCount_lastOffset. Qed.

(** The compacted leaf holds the survivors, in ascending index order. *)
Lemma compact_points f leaf :
  leaf_wf leaf = true ->
  points (compact_leaf f leaf)
  = row leaf <$> beginIndexAll leaf (MultiGroupFilter_valid f (attributeSet leaf)).
Proof.
  intros Hwf.
  destruct (compact_leaf_cases f leaf Hwf)
    as [[Hz ->] | [(Hnz & Hnil & ->) | (Hnz & Hsome & HN & ->)]].
  - by rewrite points_empty, beginIndexAll_empty.
  - by rewrite Hnil, points_empty by apply pointCount_clear.
  - by apply points_rebuilt.
Qed.

Lemma compact_pointCount f leaf :
  leaf_wf leaf = true ->
  pointCount (compact_leaf f leaf)
  = length (beginIndexAll leaf (MultiGroupFilter_valid f (attributeSet leaf))).
Proof.
  intros Hwf.
  pose proof (compact_points f leaf Hwf) as Hp.
  apply (f_equal length) in Hp. unfold points in Hp.
  by rewrite !length_fmap, length_seq in Hp.
Qed.

Lemma beginIndexVoxel_subseteq leaf valid v i :
  nondecreasing (offsets leaf) = true ->
  i ∈ beginIndexVoxel leaf v valid -> i ∈ beginIndexAll leaf valid.
Proof.
  intros Hs. unfold beginIndexVoxel, beginIndexAll.
  rewrite !list_elem_of_filter, !elem_of_seq. intros [Hv Hi]. split; [done|].
  pose proof (getOffset_le_last leaf v Hs). lia.
Qed.

Lemma beginIndexVoxel_out leaf valid v :
  length (offsets leaf) ≤ v -> beginIndexVoxel leaf v valid = [].
Proof.
  intros Hv. unfold beginIndexVoxel, getOffset.
  by rewrite (lookup_ge_None_2 _ _ Hv).
Qed.

(** Voxel by voxel, the compacted leaf holds the survivors of the voxel. *)
Lemma compact_voxelPoints f leaf v :
  leaf_wf leaf = true ->
  voxelPoints (compact_leaf f leaf) v
  = row leaf <$> beginIndexVoxel leaf v (MultiGroupFilter_valid f (attributeSet leaf)).
Proof.
  intros Hwf. destruct (leaf_wf_unfold _ Hwf) as (_ & Hs & _ & _).
  pose proof (compact_leaf_cases f leaf Hwf) as Hc. cbv zeta in Hc.
  set (valid := MultiGroupFilter_valid f (attributeSet leaf)) in *.
  assert (Hsub : beginIndexAll leaf valid = [] -> beginIndexVoxel leaf v valid = []).
  { intros Hnil. destruct (beginIndexVoxel leaf v valid) as [|i l] eqn:Hv; [done|].
    assert (Hi : i ∈ beginIndexAll leaf valid).
    { apply (beginIndexVoxel_subseteq leaf valid v); [done|]. rewrite Hv. left. }
    rewrite Hnil in Hi. by apply not_elem_of_nil in Hi. }
  destruct Hc as [[Hz ->] | [(Hnz & Hnil & ->) | (Hnz & Hsome & HN & ->)]].
  - unfold voxelPoints.
    rewrite (Hsub (beginIndexAll_empty leaf valid Hz)).
    assert (Hall : beginIndexVoxel leaf v NullFilter = []); [|by rewrite Hall].
    destruct (beginIndexVoxel leaf v NullFilter) as [|i l] eqn:Hv; [done|].
    assert (Hi : i ∈ beginIndexAll leaf NullFilter).
    { apply (beginIndexVoxel_subseteq leaf NullFilter v); [done|]. rewrite Hv. left. }
    rewrite (beginIndexAll_empty leaf NullFilter Hz) in Hi. by apply not_elem_of_nil in Hi.
  - rewrite (Hsub Hnil). unfold voxelPoints.
    by rewrite beginIndexVoxel_out by (simpl; lia).
  - destruct (decide (v < NUM_VALUES)) as [Hv|Hv].
    + by apply voxelPoints_rebuilt.
    + unfold voxelPoints.
      rewrite !beginIndexVoxel_out; [done|lia|rewrite length_offsets_rebuilt; lia].
Qed.

Lemma clearAttributes_wf leaf : leaf_wf (clearAttributes leaf) = true.
Proof.
  apply leaf_wf_intro; simpl; try done. by left.
Qed.

Lemma compact_wf f leaf : leaf_wf leaf = true -> leaf_wf (compact_leaf f leaf) = true.
Proof.
  intros Hwf.
  destruct (compact_leaf_cases f leaf Hwf)
    as [[Hz ->] | [(Hnz & Hnil & ->) | (Hnz & Hsome & HN & ->)]].
  - done.
  - apply clearAttributes_wf.
  - by apply rebuilt_leaf_wf.
Qed.

Lemma compact_leaf_rebuilt_form f leaf :
  leaf_wf leaf = true ->
  beginIndexAll leaf (MultiGroupFilter_valid f (attributeSet leaf)) ≠ [] ->
  compact_leaf f leaf = rebuilt_leaf leaf (MultiGroupFilter_valid f (attributeSet leaf)).
Proof.
  intros Hwf Hsome.
  destruct (compact_leaf_cases f leaf Hwf)
    as [[Hz _] | [(_ & Hnil & _) | (_ & _ & _ & Hc)]]; [|done|done].
  by rewrite (beginIndexAll_empty leaf _ Hz) in Hsome.
Qed.

Lemma Leaf_dropGroups_arrays gs leaf :
  arrays (attributeSet (Leaf_dropGroups gs leaf)) = arrays (attributeSet leaf)
  ∧ offsets (Leaf_dropGroups gs leaf) = offsets leaf.
Proof.
  unfold Leaf_dropGroups. revert leaf.
  induction gs as [|g gs IH]; intros leaf; [done|]. simpl.
  destruct (IH (Leaf_dropGroup g leaf)) as [-> ->]. done.
Qed.

Lemma Leaf_dropGroups_groupMap gs leaf g :
  groupMap (descriptor (attributeSet (Leaf_dropGroups gs leaf))) !! g
  = if decide (g ∈ gs) then None else groupMap (descriptor (attributeSet leaf)) !! g.
Proof.
  unfold Leaf_dropGroups. revert leaf.
  induction gs as [|g' gs IH]; intros leaf.
  - destruct (decide (g ∈ [])) as [Hin|_]; [by apply not_elem_of_nil in Hin|done].
  - cbn [foldl]. rewrite IH. cbn [Leaf_dropGroup Descriptor_dropGroup attributeSet descriptor groupMap].
    destruct (decide (g ∈ gs)) as [Hin|Hout].
    + rewrite decide_True by (by right). done.
    + destruct (decide (g = g')) as [->|Hne].
      * rewrite decide_True by left. apply lookup_delete_eq.
      * rewrite decide_False by (rewrite elem_of_cons; tauto).
        apply lookup_delete_ne. congruence.
Qed.

Lemma Leaf_dropGroups_observe gs leaf :
  pointCount (Leaf_dropGroups gs leaf) = pointCount leaf
  ∧ points (Leaf_dropGroups gs leaf) = points leaf
  ∧ (forall v, voxelPoints (Leaf_dropGroups gs leaf) v = voxelPoints leaf v)
  ∧ leaf_wf (Leaf_dropGroups gs leaf) = leaf_wf leaf.
Proof.
  destruct (Leaf_dropGroups_arrays gs leaf) as [Ha Ho].
  assert (Hrow : forall i, row (Leaf_dropGroups gs leaf) i = row leaf i).
  { intros i. unfold row. by rewrite Ha. }
  assert (Hcount : pointCount (Leaf_dropGroups gs leaf) = pointCount leaf).
  { rewrite !pointCount_lastOffset. unfold lastOffset. by rewrite Ho. }
  repeat split.
  - done.
  - unfold points. rewrite Hcount. apply list_fmap_ext. intros; apply Hrow.
  - intros v. unfold voxelPoints, beginIndexVoxel, voxelStart, getOffset. rewrite Ho.
    apply list_fmap_ext. intros; apply Hrow.
  - unfold leaf_wf, lastOffset. by rewrite Ha, Ho.
Qed.

End CompactLeaf.

(** ** The tree *)

Section TreeLevel.
Context `{LeafTraits}.

Lemma emit_ops n ops : forall st,
  foldl (fun st op => emit (EvLeaf n op) st) st ops
  = {| tree := alter (fun leaf => foldl (fun leaf op => apply_LeafOp op leaf) leaf ops)
                     n (tree st);
       log := log st ++ (EvLeaf n <$> ops) |}.
Proof.
  induction ops as [|op ops IH]; intros st.
  - simpl. rewrite app_nil_r, list_alter_id by done. by destruct st.
  - simpl. rewrite IH. unfold emit at 1 2. simpl.
    rewrite list_alter_alter_eq, <- (assoc_L (++)). reflexivity.
Qed.

(** The loop body touches the leaf it runs on and nothing else. *)
Lemma DeleteGroupsOp_leaf_eq f n st :
  DeleteGroupsOp_leaf f n st
  = {| tree := alter (compact_leaf f) n (tree st);
       log := log st ++ match tree st !! n with
                        | Some leaf => EvLeaf n <$> DeleteGroupsOp_body f leaf
                        | None => []
                        end |}.
Proof.
  unfold DeleteGroupsOp_leaf. destruct (tree st !! n) as [leaf|] eqn:Hn.
  - rewrite emit_ops. f_equal. apply list_alter_ext; [|done].
    intros x Hx. rewrite Hn in Hx. by inversion Hx.
  - rewrite app_nil_r. destruct st as [t l]. simpl in *. f_equal.
    apply list_eq. intros i. destruct (decide (i = n)) as [->|Hne].
    + by rewrite list_lookup_alter_eq, Hn.
    + by rewrite list_lookup_alter_ne.
Qed.

Lemma DeleteGroupsOp_leaf_tree f n st :
  tree (DeleteGroupsOp_leaf f n st) = alter (compact_leaf f) n (tree st).
Proof. by rewrite DeleteGroupsOp_leaf_eq. Qed.

Lemma foldl_leaf_lookup f range : NoDup range -> forall st i,
  tree (foldl (fun st n => DeleteGroupsOp_leaf f n st) st range) !! i
  = if decide (i ∈ range) then compact_leaf f <$> tree st !! i else tree st !! i.
Proof.
  induction 1 as [|n range Hn Hnd IH]; intros st i.
  - destruct (decide (i ∈ [])) as [Hin|_]; [by apply not_elem_of_nil in Hin|done].
  - cbn [foldl]. rewrite IH, DeleteGroupsOp_leaf_tree.
    destruct (decide (i = n)) as [->|Hne].
    + rewrite (decide_False (P := n ∈ range)) by done.
      rewrite (decide_True (P := n ∈ n :: range)) by left.
      apply list_lookup_alter_eq.
    + rewrite list_lookup_alter_ne by done.
      destruct (decide (i ∈ range)) as [Hin|Hout].
      * rewrite decide_True; [done|]. by right.
      * rewrite decide_False; [done|]. rewrite elem_of_cons. tauto.
Qed.

Lemma parallel_for_concat f schedule st :
  parallel_for schedule
    (fun range st => foldl (fun st n => DeleteGroupsOp_leaf f n st) st range) st
  = foldl (fun st n => DeleteGroupsOp_leaf f n st) st (concat schedule).
Proof. unfold parallel_for. apply foldl_concat. Qed.

(** Under any schedule that visits every leaf once, the parallel loop
    compacts every leaf. *)
Lemma parallel_for_tree names invert schedule st :
  valid_schedule schedule (length (tree st)) ->
  tree (parallel_for schedule (DeleteGroupsOp names invert) st)
  = compact_leaf (DeleteGroupsOp_filter names invert) <$> tree st.
Proof.
  intros Hvalid. unfold valid_schedule in Hvalid.
  unfold DeleteGroupsOp. rewrite parallel_for_concat.
  apply list_eq. intros i.
  rewrite foldl_leaf_lookup, list_lookup_fmap.
  - destruct (decide (i ∈ concat schedule)) as [Hin|Hout]; [done|].
    rewrite Hvalid, elem_of_seq in Hout.
    rewrite (lookup_ge_None_2 (tree st) i) by lia. done.
  - rewrite Hvalid. apply NoDup_seq.
Qed.

Lemma leafRange_valid (t : list Leaf) : valid_schedule (leafRange t) (length t).
Proof. unfold valid_schedule, leafRange. simpl. by rewrite app_nil_r. Qed.

Lemma dropGroups_eq gs : forall st,
  dropGroups gs st
  = {| tree := Leaf_dropGroups gs <$> tree st; log := log st ++ (EvDropGroup <$> gs) |}.
Proof.
  unfold dropGroups, Leaf_dropGroups.
  induction gs as [|g gs IH]; intros st.
  - simpl. rewrite app_nil_r, list_fmap_id. by destruct st.
  - cbn [foldl]. rewrite IH. unfold emit. simpl.
    rewrite <- list_fmap_compose, <- (assoc_L (++)). reflexivity.
Qed.

Lemma availableGroups_of_filter d groups :
  availableGroups_of d groups = filter (fun g => hasGroup d g) groups.
Proof.
  unfold availableGroups_of.
  enough (Hgen : forall acc,
    foldl (fun acc g => if hasGroup d g then acc ++ [g] else acc) acc groups
    = acc ++ filter (fun g => hasGroup d g) groups) by apply (Hgen []).
  induction groups as [|g groups IH]; intros acc.
  - simpl. by rewrite app_nil_r.
  - cbn [foldl]. rewrite IH, filter_cons.
    destruct (hasGroup d g); simpl.
    + by rewrite <- (assoc_L (++)).
    + done.
Qed.

Lemma elem_of_availableGroups d groups g :
  g ∈ availableGroups_of d groups <-> g ∈ groups ∧ hasGroup d g = true.
Proof.
  rewrite availableGroups_of_filter, list_elem_of_filter, Is_true_true. tauto.
Qed.

(** The tree that [deleteFromGroups_run] leaves, under any valid schedule. *)
Lemma deleteFromGroups_run_tree schedule groups invert st leaf0 rest :
  valid_schedule schedule (length (tree st)) ->
  tree st = leaf0 :: rest ->
  availableGroups_of (descriptor (attributeSet leaf0)) groups ≠ [] ->
  tree (deleteFromGroups_run schedule groups invert st)
  = (fun leaf =>
       let leaf' := compact_leaf
                      (DeleteGroupsOp_filter
                         (availableGroups_of (descriptor (attributeSet leaf0)) groups)
                         invert) leaf in
       if invert then leaf'
       else Leaf_dropGroups (availableGroups_of (descriptor (attributeSet leaf0)) groups)
                            leaf')
    <$> tree st.
Proof.
  intros Hvalid Ht Havail. unfold deleteFromGroups_run. rewrite Ht.
  rewrite decide_False by done. rewrite <- Ht.
  destruct invert.
  - by rewrite parallel_for_tree.
  - rewrite dropGroups_eq. cbn [tree]. rewrite parallel_for_tree by done.
    by rewrite <- list_fmap_compose.
Qed.

Lemma deleteFromGroups_run_noop schedule groups invert st :
  (tree st = [] ∨ groups = []
   ∨ forall leaf0, head (tree st) = Some leaf0 ->
       forall g, g ∈ groups -> hasGroup (descriptor (attributeSet leaf0)) g = false) ->
  deleteFromGroups_run schedule groups invert st = st.
Proof.
  intros Hcase. unfold deleteFromGroups_run.
  destruct (tree st) as [|leaf0 rest] eqn:Ht; [done|].
  rewrite decide_True; [done|].
  destruct Hcase as [Hnil | [-> | Hnone]]; [done|done|].
  destruct (availableGroups_of _ groups) as [|g l] eqn:Hav; [done|].
  assert (Hg : g ∈ availableGroups_of (descriptor (attributeSet leaf0)) groups)
    by (rewrite Hav; left).
  apply elem_of_availableGroups in Hg as [Hin Hhas].
  rewrite (Hnone leaf0 eq_refl g Hin) in Hhas. done.
Qed.

End TreeLevel.

Section Filters.
Context `{LeafTraits}.

Lemma valid_noninverted names a i :
  MultiGroupFilter_valid (DeleteGroupsOp_filter names false) a i
  = negb (existsb (fun g => inGroup a g i) names).
Proof. reflexivity. Qed.

Lemma valid_inverted names a i :
  names ≠ [] ->
  MultiGroupFilter_valid (DeleteGroupsOp_filter names true) a i
  = existsb (fun g => inGroup a g i) names.
Proof.
  intros Hne. unfold MultiGroupFilter_valid. simpl.
  rewrite bool_decide_eq_false_2 by done. simpl. apply andb_true_r.
Qed.

Lemma inGroup_undeclared a g i :
  hasGroup (descriptor a) g = false -> inGroup a g i = false.
Proof.
  unfold hasGroup, inGroup. intros Hno.
  destruct (groupMap (descriptor a) !! g) eqn:Hg; [|done].
  apply bool_decide_eq_false_1 in Hno. destruct Hno. by eexists.
Qed.

(** Membership in a requested group is membership in a resolved group: a
    name that is not declared has no member. *)
Lemma existsb_available a groups i :
  existsb (fun g => inGroup a g i) (availableGroups_of (descriptor a) groups)
  = existsb (fun g => inGroup a g i) groups.
Proof.
  rewrite availableGroups_of_filter.
  induction groups as [|g groups IH]; [done|].
  rewrite filter_cons. destruct (hasGroup (descriptor a) g) eqn:Hg; simpl.
  - by rewrite IH.
  - by rewrite IH, inGroup_undeclared.
Qed.

Lemma existsb_false_iff {A} (p : A -> bool) (l : list A) :
  existsb p l = false <-> forall x, x ∈ l -> p x = false.
Proof.
  induction l as [|y l IH]; simpl.
  - split; [|done]. intros _ x Hx. by apply not_elem_of_nil in Hx.
  - rewrite orb_false_iff, IH. split.
    + intros [Hy Hl] x Hx. apply elem_of_cons in Hx as [->|Hx]; auto.
    + intros Hall. split; [apply Hall; left|]. intros x Hx. apply Hall. by right.
Qed.

Lemma existsb_true_iff {A} (p : A -> bool) (l : list A) :
  existsb p l = true <-> exists x, x ∈ l ∧ p x = true.
Proof.
  rewrite existsb_exists. split; intros (x & Hx & Hp); exists x; split; try done.
  - by apply list_elem_of_In.
  - by apply list_elem_of_In.
Qed.

Lemma existsb_same_elements {A} (p : A -> bool) (l1 l2 : list A) :
  (forall x, x ∈ l1 <-> x ∈ l2) -> existsb p l1 = existsb p l2.
Proof.
  intros Hsame. destruct (existsb p l2) eqn:H2.
  - apply existsb_true_iff in H2 as (x & Hx & Hp).
    apply existsb_true_iff. exists x. by rewrite Hsame.
  - apply existsb_false_iff. intros x Hx.
    apply (proj1 (existsb_false_iff p l2) H2). by apply Hsame.
Qed.

Lemma filter_ext_in {A} (P Q : A -> Prop)
    `{!∀ x, Decision (P x)} `{!∀ x, Decision (Q x)} (l : list A) :
  (forall x, x ∈ l -> (P x <-> Q x)) -> filter P l = filter Q l.
Proof.
  induction l as [|x l IH]; intros Hext; [done|].
  rewrite !filter_cons.
  rewrite IH by (intros y Hy; apply Hext; by right).
  destruct (decide (P x)) as [HP|HP], (decide (Q x)) as [HQ|HQ]; try done.
  - destruct HQ. apply Hext; [left|done].
  - destruct HP. apply Hext; [left|done].
Qed.

Lemma StronglySorted_seq j n : StronglySorted lt (seq j n).
Proof.
  revert j. induction n as [|n IH]; intros j; simpl; constructor; [apply IH|].
  apply Forall_forall. intros x Hx. apply elem_of_seq in Hx. lia.
Qed.

Lemma StronglySorted_lt_lookup (l : list nat) :
  StronglySorted lt l ->
  forall a b x y, a < b -> l !! a = Some x -> l !! b = Some y -> x < y.
Proof.
  induction 1 as [|z l Hl IH Hz]; intros a b x y Hab Ha Hb; [done|].
  destruct b as [|b]; [lia|]. destruct a as [|a]; simpl in Ha, Hb.
  - inversion Ha; subst. rewrite Forall_forall in Hz. apply Hz.
    by eapply list_elem_of_lookup_2.
  - apply (IH a b); [lia|done|done].
Qed.

Lemma StronglySorted_filter {A} (R : relation A) (P : A -> Prop)
    `{!∀ x, Decision (P x)} (l : list A) :
  StronglySorted R l -> StronglySorted R (filter P l).
Proof.
  induction 1 as [|x l Hl IH Hx]; [constructor|].
  rewrite filter_cons. case_decide; [|done].
  constructor; [done|].
  apply Forall_forall. intros y Hy. apply list_elem_of_filter in Hy as [_ Hy].
  rewrite Forall_forall in Hx. by apply Hx.
Qed.

End Filters.

Section Orchestrator.
Context `{LeafTraits}.

Lemma tree_wf_unfold t : tree_wf t = true ->
  Forall (fun leaf => leaf_wf leaf = true) t
  ∧ forall leaf0 leaf, head t = Some leaf0 -> leaf ∈ t ->
      descriptor (attributeSet leaf) = descriptor (attributeSet leaf0).
Proof.
  unfold tree_wf. rewrite andb_true_iff, forallb_forall. intros [Hwf Hsh]. split.
  - apply Forall_forall. intros leaf Hin. by apply Hwf, list_elem_of_In.
  - intros leaf0 leaf Hhd Hin. destruct t as [|l0 rest]; [done|].
    simpl in Hhd. inversion Hhd; subst. simpl in Hsh.
    apply elem_of_cons in Hin as [->|Hin]; [done|].
    rewrite forallb_forall in Hsh.
    apply list_elem_of_In, Hsh in Hin. by apply bool_decide_eq_true in Hin.
Qed.

Lemma resolved_head t leaf0 groups :
  head t = Some leaf0 ->
  resolved t groups = availableGroups_of (descriptor (attributeSet leaf0)) groups.
Proof. destruct t; intros Hhd; [done|]. simpl in Hhd. by inversion Hhd. Qed.

(** What [deleteFromGroups] makes of each leaf. *)
Lemma run_lookup schedule t groups invert r leaf :
  valid_schedule schedule (length t) ->
  t !! r = Some leaf ->
  tree (deleteFromGroups_run schedule groups invert {| tree := t; log := [] |}) !! r
  = Some (if decide (resolved t groups = []) then leaf
          else
            let leaf' := compact_leaf (DeleteGroupsOp_filter (resolved t groups) invert)
                                      leaf in
            if invert then leaf' else Leaf_dropGroups (resolved t groups) leaf').
Proof.
  intros Hvalid Hr. destruct t as [|leaf0 rest] eqn:Ht; [done|]. rewrite <- Ht in *.
  assert (Hres : resolved t groups
                 = availableGroups_of (descriptor (attributeSet leaf0)) groups)
    by (by rewrite Ht).
  case_decide as Hav.
  - rewrite deleteFromGroups_run_noop; [done|].
    right; right. simpl. intros l0 Hl0 g Hg. rewrite Ht in Hl0. simpl in Hl0.
    inversion Hl0; subst l0.
    destruct (hasGroup (descriptor (attributeSet leaf0)) g) eqn:Hhas; [|done].
    assert (Hin : g ∈ resolved t groups)
      by (rewrite Hres; by apply elem_of_availableGroups).
    rewrite Hav in Hin. by apply not_elem_of_nil in Hin.
  - rewrite (deleteFromGroups_run_tree schedule groups invert _ leaf0 rest);
      [|done|by rewrite Ht|by rewrite <- Hres].
    simpl. rewrite list_lookup_fmap, Hr. simpl. by rewrite <- Hres.
Qed.

Lemma deleteFromGroups_lookup t groups invert r leaf :
  t !! r = Some leaf ->
  deleteFromGroups t groups invert !! r
  = Some (if decide (resolved t groups = []) then leaf
          else
            let leaf' := compact_leaf (DeleteGroupsOp_filter (resolved t groups) invert)
                                      leaf in
            if invert then leaf' else Leaf_dropGroups (resolved t groups) leaf').
Proof. intros Hr. unfold deleteFromGroups. apply run_lookup; [apply leafRange_valid|done]. Qed.

Lemma voxel_range_filter leaf (σ : list nat) valid v :
  nondecreasing (offsets leaf) = true ->
  (forall p, p < pointCount leaf -> (p ∈ σ <-> valid p = true)) ->
  beginIndexVoxel leaf v valid
  = filter (fun p => p ∈ σ) (beginIndexVoxel leaf v NullFilter).
Proof.
  intros Hs Hσ. unfold beginIndexVoxel.
  rewrite (filter_Forall_id (fun i => NullFilter i))
    by (apply Forall_forall; intros; exact I).
  apply filter_ext_in. intros p Hp. apply elem_of_seq in Hp.
  pose proof (getOffset_le_last leaf v Hs).
  rewrite Hσ by (rewrite pointCount_lastOffset; lia). by rewrite Is_true_true.
Qed.

(** The leaf that [deleteFromGroups] leaves at position [r]: it is
    well-formed, it holds the surviving points of the old leaf in ascending
    index order, and each of its voxels holds the survivors of that voxel. *)
Lemma deleteFromGroups_leaf t groups invert r leaf :
  tree_wf t = true -> t !! r = Some leaf ->
  exists leaf',
    deleteFromGroups t groups invert !! r = Some leaf'
    ∧ leaf_wf leaf' = true
    ∧ points leaf' = row leaf <$> survivors t groups invert leaf
    ∧ forall v, voxelPoints leaf' v
                = row leaf <$> filter (fun p => p ∈ survivors t groups invert leaf)
                                      (beginIndexVoxel leaf v NullFilter).
Proof.
  intros Htwf Hr. destruct (tree_wf_unfold t Htwf) as [Hall _].
  assert (Hwf : leaf_wf leaf = true).
  { rewrite Forall_forall in Hall. apply Hall. by eapply list_elem_of_lookup_2. }
  destruct (leaf_wf_unfold _ Hwf) as (_ & Hs & _ & _).
  eexists. split; [by apply deleteFromGroups_lookup|].
  unfold survivors. case_decide as Hav.
  - split; [done|]. split; [done|]. intros v. unfold voxelPoints. f_equal.
    symmetry. apply filter_Forall_id, Forall_forall. intros p Hp.
    apply (beginIndexVoxel_subseteq leaf NullFilter v p Hs) in Hp.
    apply elem_of_beginIndexAll in Hp as [Hp _]. apply elem_of_seq. lia.
  - set (f := DeleteGroupsOp_filter (resolved t groups) invert).
    assert (Hgoal : leaf_wf (compact_leaf f leaf) = true
      ∧ points (compact_leaf f leaf)
        = row leaf <$> beginIndexAll leaf (MultiGroupFilter_valid f (attributeSet leaf))
      ∧ forall v, voxelPoints (compact_leaf f leaf) v
                  = row leaf <$> filter
                      (fun p => p ∈ beginIndexAll leaf
                                      (MultiGroupFilter_valid f (attributeSet leaf)))
                      (beginIndexVoxel leaf v NullFilter)).
    { split; [by apply compact_wf|]. split; [by apply compact_points|].
      intros v. rewrite compact_voxelPoints by done. f_equal.
      apply voxel_range_filter; [done|]. intros p Hp.
      rewrite elem_of_beginIndexAll. tauto. }
    cbv zeta. destruct invert; [exact Hgoal|].
    destruct (Leaf_dropGroups_observe (resolved t groups) (compact_leaf f leaf))
      as (_ & -> & Hvox & ->).
    destruct Hgoal as (? & ? & ?). repeat split; try done.
    intros v. by rewrite Hvox.
Qed.

(** Every offset of a leaf that still holds points counts the survivors of
    the voxels up to its own. *)
Lemma deleteFromGroups_offsets t groups invert r leaf leaf' v :
  tree_wf t = true -> t !! r = Some leaf ->
  deleteFromGroups t groups invert !! r = Some leaf' ->
  pointCount leaf' ≠ 0 -> v < NUM_VALUES ->
  getOffset leaf' v
  = length (filter (fun p => p ∈ survivors t groups invert leaf)
                   (seq 0 (getOffset leaf v))).
Proof.
  intros Htwf Hr Hl Hne Hv. destruct (tree_wf_unfold t Htwf) as [Hall _].
  assert (Hwf : leaf_wf leaf = true).
  { rewrite Forall_forall in Hall. apply Hall. by eapply list_elem_of_lookup_2. }
  destruct (leaf_wf_unfold _ Hwf) as (_ & Hs & _ & _).
  pose proof (getOffset_le_last leaf v Hs) as Hlast.
  rewrite (deleteFromGroups_lookup t groups invert r leaf Hr) in Hl.
  apply (inj Some) in Hl. rename Hl into Hleaf'. unfold survivors.
  destruct (decide (resolved t groups = [])) as [Hav|Hav].
  - subst leaf'.
    rewrite filter_Forall_id, length_seq; [done|].
    apply Forall_forall. intros p Hp. apply elem_of_seq in Hp. apply elem_of_seq.
    rewrite pointCount_lastOffset. lia.
  - set (f := DeleteGroupsOp_filter (resolved t groups) invert) in *.
    cbv zeta in Hleaf'.
    assert (Hoff : getOffset leaf' v = getOffset (compact_leaf f leaf) v
                   ∧ pointCount leaf' = pointCount (compact_leaf f leaf)).
    { destruct invert; [by subst|]. subst leaf'.
      destruct (Leaf_dropGroups_arrays (resolved t groups) (compact_leaf f leaf))
        as [_ Ho].
      destruct (Leaf_dropGroups_observe (resolved t groups) (compact_leaf f leaf))
        as (Hc & _).
      split; [|done]. unfold getOffset. by rewrite Ho. }
    destruct Hoff as [-> Hcount]. rewrite Hcount in Hne.
    destruct (compact_leaf_cases f leaf Hwf)
      as [[Hz Hc] | [(Hnz & Hnil & Hc) | (Hnz & Hsome & HN & Hc)]];
      rewrite Hc in Hne |- *.
    + done.
    + by rewrite pointCount_clear in Hne.
    + rewrite getOffset_rebuilt by done. unfold survivors_below. f_equal.
      apply filter_ext_in. intros p Hp. apply elem_of_seq in Hp.
      rewrite elem_of_beginIndexAll, pointCount_lastOffset, Is_true_true.
      intuition lia.
Qed.

(** Without inversion the survivors are the points in none of the requested
    groups. *)
Lemma survivors_noninverted t groups leaf :
  tree_wf t = true -> leaf ∈ t ->
  survivors t groups false leaf
  = filter (fun p => inNoGroup leaf groups p) (seq 0 (pointCount leaf)).
Proof.
  intros Htwf Hin. destruct (tree_wf_unfold t Htwf) as [_ Hsh].
  destruct t as [|leaf0 rest] eqn:Ht; [by apply not_elem_of_nil in Hin|].
  rewrite <- Ht in *.
  assert (Hd : descriptor (attributeSet leaf) = descriptor (attributeSet leaf0)).
  { apply Hsh; [by rewrite Ht|done]. }
  assert (Hres : resolved t groups
                 = availableGroups_of (descriptor (attributeSet leaf)) groups)
    by (by rewrite Ht, Hd).
  assert (Hno : forall p, inNoGroup leaf groups p
                          = negb (existsb (fun g => inGroup (attributeSet leaf) g p)
                                          (resolved t groups))).
  { intros p. unfold inNoGroup. by rewrite Hres, existsb_available. }
  unfold survivors. case_decide as Hav.
  - symmetry. apply filter_Forall_id, Forall_forall. intros p _.
    rewrite Hno, Hav. done.
  - unfold beginIndexAll. rewrite <- pointCount_lastOffset.
    apply filter_ext_in. intros p _. by rewrite valid_noninverted, Hno.
Qed.

(** With inversion, and at least one requested group declared, the survivors
    are the points in at least one requested group. *)
Lemma survivors_inverted t groups leaf :
  tree_wf t = true -> leaf ∈ t -> resolved t groups ≠ [] ->
  survivors t groups true leaf
  = filter (fun p => inSomeGroup leaf groups p) (seq 0 (pointCount leaf)).
Proof.
  intros Htwf Hin Hav. destruct (tree_wf_unfold t Htwf) as [_ Hsh].
  destruct t as [|leaf0 rest] eqn:Ht; [by apply not_elem_of_nil in Hin|].
  rewrite <- Ht in *.
  assert (Hd : descriptor (attributeSet leaf) = descriptor (attributeSet leaf0)).
  { apply Hsh; [by rewrite Ht|done]. }
  assert (Hres : resolved t groups
                 = availableGroups_of (descriptor (attributeSet leaf)) groups)
    by (by rewrite Ht, Hd).
  unfold survivors. rewrite decide_False by done.
  unfold beginIndexAll. rewrite <- pointCount_lastOffset.
  apply filter_ext_in. intros p _. rewrite valid_inverted by done.
  unfold inSomeGroup. by rewrite Hres, existsb_available.
Qed.

(** The survivors are the points that [survives] names. *)
Lemma survivors_survives t groups invert leaf :
  tree_wf t = true -> leaf ∈ t ->
  survivors t groups invert leaf
  = filter (fun p => survives leaf groups invert p) (seq 0 (pointCount leaf)).
Proof.
  intros Htwf Hin. destruct invert; [|by apply survivors_noninverted].
  destruct (tree_wf_unfold t Htwf) as [_ Hsh].
  destruct t as [|leaf0 rest] eqn:Ht; [by apply not_elem_of_nil in Hin|].
  rewrite <- Ht in *.
  assert (Hd : descriptor (attributeSet leaf) = descriptor (attributeSet leaf0)).
  { apply Hsh; [by rewrite Ht|done]. }
  assert (Hres : resolved t groups
                 = availableGroups_of (descriptor (attributeSet leaf)) groups)
    by (by rewrite Ht, Hd).
  destruct (decide (resolved t groups = [])) as [Hav|Hav].
  - unfold survivors. rewrite decide_True by done.
    symmetry. apply filter_Forall_id, Forall_forall. intros p _.
    assert (Hnone : existsb (hasGroup (descriptor (attributeSet leaf))) groups = false).
    { apply existsb_false_iff. intros g Hg.
      destruct (hasGroup (descriptor (attributeSet leaf)) g) eqn:Hhas; [|done].
      assert (Hmem : g ∈ resolved t groups)
        by (rewrite Hres; by apply elem_of_availableGroups).
      rewrite Hav in Hmem. by apply not_elem_of_nil in Hmem. }
    unfold survives. rewrite Hnone. simpl. rewrite orb_true_r. done.
  - rewrite survivors_inverted by done.
    apply filter_ext_in. intros p _.
    assert (Hsome : existsb (hasGroup (descriptor (attributeSet leaf))) groups = true).
    { destruct (resolved t groups) as [|g l] eqn:Hl; [done|].
      assert (Hmem : g ∈ availableGroups_of (descriptor (attributeSet leaf)) groups)
        by (rewrite <- Hres; left).
      apply elem_of_availableGroups in Hmem as [Hg Hhas].
      apply existsb_true_iff. by exists g. }
    unfold survives. rewrite Hsome. simpl. by rewrite orb_false_r.
Qed.

Lemma survivors_sorted t groups invert leaf :
  StronglySorted lt (survivors t groups invert leaf)
  ∧ forall p, p ∈ survivors t groups invert leaf -> p < pointCount leaf.
Proof.
  unfold survivors. case_decide.
  - split; [apply StronglySorted_seq|]. intros p Hp. apply elem_of_seq in Hp. lia.
  - split; [apply StronglySorted_filter, StronglySorted_seq|].
    intros p Hp. by apply elem_of_beginIndexAll in Hp as [? _].
Qed.

End Orchestrator.

(** ** Filters with the same matches, and the record of a run *)

Section Extensionality.
Context `{LeafTraits}.

Lemma foldl_ext {A B} (f g : A -> B -> A) (l : list B) :
  (forall a b, f a b = g a b) -> forall a, foldl f a l = foldl g a l.
Proof.
  intros Hfg. induction l as [|b l IH]; intros a; [done|].
  simpl. by rewrite Hfg, IH.
Qed.

Lemma beginIndexAll_ext leaf v1 v2 :
  (forall i, v1 i = v2 i) -> beginIndexAll leaf v1 = beginIndexAll leaf v2.
Proof.
  intros Hv. unfold beginIndexAll. apply filter_ext_in. intros i _. by rewrite Hv.
Qed.

Lemma beginIndexVoxel_ext leaf v v1 v2 :
  (forall i, v1 i = v2 i) -> beginIndexVoxel leaf v v1 = beginIndexVoxel leaf v v2.
Proof.
  intros Hv. unfold beginIndexVoxel. apply filter_ext_in. intros i _. by rewrite Hv.
Qed.

Lemma rebuild_ext leaf v1 v2 size :
  (forall i, v1 i = v2 i) -> rebuild leaf v1 size = rebuild leaf v2 size.
Proof.
  intros Hv. unfold rebuild. apply foldl_ext. intros c v.
  unfold voxel_step. by rewrite (beginIndexVoxel_ext leaf v v1 v2).
Qed.

(** The loop body depends on the filter only through the points it matches. *)
Lemma DeleteGroupsOp_body_ext f1 f2 leaf :
  (forall i, MultiGroupFilter_valid f1 (attributeSet leaf) i
             = MultiGroupFilter_valid f2 (attributeSet leaf) i) ->
  DeleteGroupsOp_body f1 leaf = DeleteGroupsOp_body f2 leaf.
Proof.
  intros Hv. unfold DeleteGroupsOp_body.
  rewrite (beginIndexAll_ext leaf _ _ Hv).
  by rewrite (rebuild_ext leaf _ _ _ Hv).
Qed.

Lemma same_elements_nil {A} (l1 l2 : list A) :
  (forall x, x ∈ l1 <-> x ∈ l2) -> (l1 = [] <-> l2 = []).
Proof.
  intros Hsame. split; intros ->.
  - destruct l2 as [|x l2]; [done|]. exfalso.
    apply (not_elem_of_nil x), Hsame. left.
  - destruct l1 as [|x l1]; [done|]. exfalso.
    apply (not_elem_of_nil x), Hsame. left.
Qed.

Lemma valid_same_elements names1 names2 invert a i :
  (forall x, x ∈ names1 <-> x ∈ names2) ->
  MultiGroupFilter_valid (DeleteGroupsOp_filter names1 invert) a i
  = MultiGroupFilter_valid (DeleteGroupsOp_filter names2 invert) a i.
Proof.
  intros Hsame. unfold MultiGroupFilter_valid. destruct invert; simpl.
  - rewrite (existsb_same_elements _ names1 names2 Hsame). f_equal. f_equal.
    apply bool_decide_ext. by apply same_elements_nil.
  - by rewrite (existsb_same_elements _ names1 names2 Hsame).
Qed.

Lemma Leaf_dropGroups_same_elements gs1 gs2 leaf :
  (forall x, x ∈ gs1 <-> x ∈ gs2) ->
  Leaf_dropGroups gs1 leaf = Leaf_dropGroups gs2 leaf.
Proof.
  intros Hsame.
  destruct (Leaf_dropGroups_arrays gs1 leaf) as [Ha1 Ho1].
  destruct (Leaf_dropGroups_arrays gs2 leaf) as [Ha2 Ho2].
  assert (Hm : groupMap (descriptor (attributeSet (Leaf_dropGroups gs1 leaf)))
               = groupMap (descriptor (attributeSet (Leaf_dropGroups gs2 leaf)))).
  { apply map_eq. intros g. rewrite !Leaf_dropGroups_groupMap.
    destruct (decide (g ∈ gs1)) as [H1|H1], (decide (g ∈ gs2)) as [H2|H2]; try done.
    - destruct H2. by apply Hsame.
    - destruct H1. by apply Hsame. }
  destruct (Leaf_dropGroups gs1 leaf) as [[[m1] a1] o1].
  destruct (Leaf_dropGroups gs2 leaf) as [[[m2] a2] o2].
  simpl in *. by subst.
Qed.

Lemma resolved_same_elements t groups :
  forall x, x ∈ resolved t groups <-> x ∈ resolved t (remove_dups groups).
Proof.
  intros x. destruct t as [|leaf0 rest]; [done|]. simpl.
  rewrite !elem_of_availableGroups, elem_of_remove_dups. done.
Qed.

(** [deleteFromGroups] maps one function over the leaves. *)
Lemma run_fmap schedule t groups invert :
  valid_schedule schedule (length t) ->
  tree (deleteFromGroups_run schedule groups invert {| tree := t; log := [] |})
  = (fun leaf =>
       if decide (resolved t groups = []) then leaf
       else
         let leaf' := compact_leaf (DeleteGroupsOp_filter (resolved t groups) invert)
                                   leaf in
         if invert then leaf' else Leaf_dropGroups (resolved t groups) leaf')
    <$> t.
Proof.
  intros Hvalid. apply list_eq. intros r. rewrite list_lookup_fmap.
  destruct (t !! r) as [leaf|] eqn:Hr.
  - by rewrite (run_lookup schedule t groups invert r leaf).
  - simpl. apply lookup_ge_None in Hr. apply lookup_ge_None.
    destruct t as [|leaf0 rest] eqn:Ht; [simpl; lia|]. rewrite <- Ht in *.
    destruct (decide (resolved t groups = [])) as [Hav|Hav].
    + rewrite deleteFromGroups_run_noop; [done|].
      right; right. simpl. intros l0 Hl0 g Hg. rewrite Ht in Hl0. simpl in Hl0.
      inversion Hl0; subst l0.
      destruct (hasGroup (descriptor (attributeSet leaf0)) g) eqn:Hhas; [|done].
      assert (Hin : g ∈ resolved t groups).
      { rewrite Ht. simpl. by apply elem_of_availableGroups. }
      rewrite Hav in Hin. by apply not_elem_of_nil in Hin.
    + rewrite (deleteFromGroups_run_tree schedule groups invert _ leaf0 rest);
        [|done|by rewrite Ht|by rewrite Ht in Hav].
      simpl. by rewrite length_fmap.
Qed.

Lemma deleteFromGroups_fmap t groups invert :
  deleteFromGroups t groups invert
  = (fun leaf =>
       if decide (resolved t groups = []) then leaf
       else
         let leaf' := compact_leaf (DeleteGroupsOp_filter (resolved t groups) invert)
                                   leaf in
         if invert then leaf' else Leaf_dropGroups (resolved t groups) leaf')
    <$> t.
Proof. unfold deleteFromGroups. apply run_fmap, leafRange_valid. Qed.

(** The record of the parallel loop holds leaf mutations only. *)
Lemma foldl_leaf_log f range : forall st,
  exists es, log (foldl (fun st n => DeleteGroupsOp_leaf f n st) st range) = log st ++ es
             ∧ Forall (fun e => is_leaf_event e = true) es.
Proof.
  induction range as [|n range IH]; intros st.
  - exists []. by rewrite app_nil_r.
  - cbn [foldl]. destruct (IH (DeleteGroupsOp_leaf f n st)) as (es & -> & Hes).
    rewrite DeleteGroupsOp_leaf_eq. cbn [log].
    eexists. rewrite <- (assoc_L (++)). split; [reflexivity|].
    apply Forall_app. split; [|done].
    destruct (tree st !! n); [|constructor].
    apply Forall_fmap, Forall_forall. done.
Qed.

Lemma parallel_for_log names invert schedule st :
  exists es, log (parallel_for schedule (DeleteGroupsOp names invert) st) = log st ++ es
             ∧ Forall (fun e => is_leaf_event e = true) es.
Proof.
  unfold DeleteGroupsOp. rewrite parallel_for_concat. apply foldl_leaf_log.
Qed.

End Extensionality.

Section Interleaving.
Context `{LeafTraits}.

Lemma leaf_events_app i es1 es2 :
  leaf_events i (es1 ++ es2) = leaf_events i es1 ++ leaf_events i es2.
Proof. unfold leaf_events. apply omap_app. Qed.

Lemma leaf_events_own n ops : leaf_events n (EvLeaf n <$> ops) = ops.
Proof.
  unfold leaf_events. induction ops as [|op ops IH]; [done|].
  cbn [fmap list_fmap omap list_omap]. rewrite decide_True by done. simpl. by f_equal.
Qed.

Lemma leaf_events_other i n ops : n ≠ i -> leaf_events i (EvLeaf n <$> ops) = [].
Proof.
  intros Hne. unfold leaf_events. induction ops as [|op ops IH]; [done|].
  cbn [fmap list_fmap omap list_omap]. by rewrite decide_False by done.
Qed.

(** A run of leaf mutations acts on each leaf through the mutations addressed
    to that leaf, in their order, whatever comes in between. *)
Lemma exec_leaf_lookup es : Forall (fun e => is_leaf_event e = true) es ->
  forall t i,
    exec es t !! i
    = (fun leaf => foldl (fun leaf op => apply_LeafOp op leaf) leaf (leaf_events i es))
        <$> t !! i.
Proof.
  induction 1 as [|e es He _ IH]; intros t i.
  - simpl. by destruct (t !! i).
  - destruct e as [n op|g]; [|done].
    unfold exec in *. cbn [foldl]. rewrite IH. cbn [exec_event].
    unfold leaf_events. cbn [omap list_omap].
    destruct (decide (n = i)) as [->|Hne].
    + rewrite list_lookup_alter_eq. by destruct (t !! i).
    + by rewrite list_lookup_alter_ne.
Qed.

Lemma foldl_leaf_events f range : NoDup range -> forall st i,
  leaf_events i (log (foldl (fun st n => DeleteGroupsOp_leaf f n st) st range))
  = leaf_events i (log st)
    ++ (if decide (i ∈ range)
        then match tree st !! i with
             | Some leaf => DeleteGroupsOp_body f leaf
             | None => []
             end
        else []).
Proof.
  induction 1 as [|n range Hn Hnd IH]; intros st i.
  - destruct (decide (i ∈ [])) as [Hin|_]; [by apply not_elem_of_nil in Hin|].
    simpl. by rewrite app_nil_r.
  - cbn [foldl]. rewrite IH. rewrite DeleteGroupsOp_leaf_eq. cbn [log tree].
    rewrite leaf_events_app, <- (assoc_L (++)). f_equal.
    destruct (decide (i = n)) as [->|Hne].
    + rewrite (decide_False (P := n ∈ range)) by done.
      rewrite (decide_True (P := n ∈ n :: range)) by left.
      rewrite app_nil_r. destruct (tree st !! n); [apply leaf_events_own|done].
    + rewrite list_lookup_alter_ne by done.
      assert (Hnil : leaf_events i
                (match tree st !! n with
                 | Some leaf => EvLeaf n <$> DeleteGroupsOp_body f leaf
                 | None => []
                 end) = []).
      { destruct (tree st !! n); [by apply leaf_events_other|done]. }
      rewrite Hnil. simpl.
      destruct (decide (i ∈ range)) as [Hin|Hout].
      * rewrite decide_True; [done|]. by right.
      * rewrite decide_False; [done|]. rewrite elem_of_cons. tauto.
Qed.

Lemma parallel_for_leaf_events names invert schedule t i leaf :
  valid_schedule schedule (length t) -> t !! i = Some leaf ->
  leaf_events i (log (parallel_for schedule (DeleteGroupsOp names invert)
                        {| tree := t; log := [] |}))
  = DeleteGroupsOp_body (DeleteGroupsOp_filter names invert) leaf.
Proof.
  intros Hvalid Hi. unfold valid_schedule in Hvalid.
  unfold DeleteGroupsOp. rewrite parallel_for_concat.
  rewrite foldl_leaf_events by (rewrite Hvalid; apply NoDup_seq).
  cbn [log tree]. rewrite Hi, decide_True; [done|].
  rewrite Hvalid, elem_of_seq. apply lookup_lt_Some in Hi. lia.
Qed.

End Interleaving.

(** ** The invariants are kept *)

Section Preservation.
Context `{LeafTraits}.

Lemma Leaf_dropGroups_descriptor gs : forall leaf,
  descriptor (attributeSet (Leaf_dropGroups gs leaf))
  = foldl (fun d g => Descriptor_dropGroup g d) (descriptor (attributeSet leaf)) gs.
Proof.
  unfold Leaf_dropGroups. induction gs as [|g gs IH]; intros leaf; [done|].
  cbn [foldl]. by rewrite IH.
Qed.

Lemma tree_wf_intro t :
  Forall (fun leaf => leaf_wf leaf = true) t ->
  (forall leaf0 leaf, head t = Some leaf0 -> leaf ∈ t ->
     descriptor (attributeSet leaf) = descriptor (attributeSet leaf0)) ->
  tree_wf t = true.
Proof.
  intros Hall Hsh. unfold tree_wf. apply andb_true_intro. split.
  - apply forallb_forall. intros leaf Hin. rewrite Forall_forall in Hall.
    by apply Hall, list_elem_of_In.
  - destruct t as [|leaf0 rest]; [done|]. simpl.
    apply forallb_forall. intros leaf Hin. apply bool_decide_eq_true.
    apply Hsh; [done|]. right. by apply list_elem_of_In.
Qed.

(** A well-formed tree stays well-formed under [deleteFromGroups]. *)
Lemma deleteFromGroups_wf t groups invert :
  tree_wf t = true -> tree_wf (deleteFromGroups t groups invert) = true.
Proof.
  intros Htwf. destruct (tree_wf_unfold t Htwf) as [Hall Hsh].
  rewrite deleteFromGroups_fmap.
  set (F := fun leaf : Leaf =>
    if decide (resolved t groups = []) then leaf
    else
      let leaf' := compact_leaf (DeleteGroupsOp_filter (resolved t groups) invert) leaf in
      if invert then leaf' else Leaf_dropGroups (resolved t groups) leaf').
  set (D := fun d : Descriptor =>
    if decide (resolved t groups = []) then d
    else if invert then d
         else foldl (fun d g => Descriptor_dropGroup g d) d (resolved t groups)).
  assert (HD : forall leaf,
    descriptor (attributeSet (F leaf)) = D (descriptor (attributeSet leaf))).
  { intros leaf. unfold F, D. case_decide; [done|]. cbv zeta.
    destruct invert; [apply compact_descriptor|].
    by rewrite Leaf_dropGroups_descriptor, compact_descriptor. }
  apply tree_wf_intro.
  - apply Forall_fmap. eapply Forall_impl; [exact Hall|]. intros leaf Hwf. simpl.
    unfold F. case_decide; [done|]. cbv zeta.
    destruct invert; [by apply compact_wf|].
    destruct (Leaf_dropGroups_observe (resolved t groups)
                (compact_leaf (DeleteGroupsOp_filter (resolved t groups) false) leaf))
      as (_ & _ & _ & ->).
    by apply compact_wf.
  - intros l0' l' Hhd Hin. destruct t as [|leaf0 rest]; [done|].
    simpl in Hhd. inversion Hhd; subst l0'.
    apply list_elem_of_fmap in Hin as (leaf & -> & Hin).
    rewrite !HD. f_equal. by apply Hsh.
Qed.

End Preservation.

(** ** The claims *)

Section Claims.
Context `{LeafTraits}.

(** C1. Completeness of non-inverted deletion: after
    [deleteFromGroups t groups false] the leaf at position [r] holds exactly
    the points of the old leaf that were in none of the requested groups (a
    point [p] is kept iff no requested group holds it); the survivor filter
    has an empty include set and the resolved names as its exclude set. *)
Theorem deleteFromGroups_completeness
    (t : list Leaf) (groups : list string) (r : nat) (leaf : Leaf) :
  tree_wf t = true ->
  t !! r = Some leaf ->
  exists leaf',
    deleteFromGroups t groups false !! r = Some leaf'
    ∧ points leaf'
      = row leaf <$> filter (fun p => inNoGroup leaf groups p) (seq 0 (pointCount leaf))
    ∧ (forall p,
         p ∈ filter (fun p => inNoGroup leaf groups p) (seq 0 (pointCount leaf))
         <-> p < pointCount leaf
             ∧ forall g, g ∈ groups -> inGroup (attributeSet leaf) g p = false)
    ∧ DeleteGroupsOp_filter (resolved t groups) false
      = {| mInclude := []; mExclude := resolved t groups |}.
Proof.
  intros Htwf Hr.
  destruct (deleteFromGroups_leaf t groups false r leaf Htwf Hr)
    as (leaf' & Hl & _ & Hp & _).
  exists leaf'. split; [done|]. split.
  - rewrite Hp, survivors_noninverted; [done|done|]. by eapply list_elem_of_lookup_2.
  - split; [|done]. intros p.
    rewrite list_elem_of_filter, elem_of_seq, Is_true_true. unfold inNoGroup.
    rewrite negb_true_iff, existsb_false_iff. intuition lia.
Qed.

(** C2 (amended). Inversion symmetry, when at least one requested group is
    declared: with [invert = true] the leaf keeps exactly the points in at
    least one requested group, with [invert = false] exactly those in none,
    so each run deletes the points the other keeps. *)
Theorem deleteFromGroups_inversion
    (t : list Leaf) (groups : list string) (r : nat) (leaf : Leaf) :
  tree_wf t = true ->
  t !! r = Some leaf ->
  (exists g, g ∈ groups ∧ hasGroup (descriptor (attributeSet leaf)) g = true) ->
  exists leafT leafF,
    deleteFromGroups t groups true !! r = Some leafT
    ∧ deleteFromGroups t groups false !! r = Some leafF
    ∧ points leafT
      = row leaf <$> filter (fun p => inSomeGroup leaf groups p) (seq 0 (pointCount leaf))
    ∧ points leafF
      = row leaf <$> filter (fun p => inNoGroup leaf groups p) (seq 0 (pointCount leaf))
    ∧ (forall p, p < pointCount leaf ->
         (p ∈ filter (fun p => inSomeGroup leaf groups p) (seq 0 (pointCount leaf))
          <-> p ∉ filter (fun p => inNoGroup leaf groups p) (seq 0 (pointCount leaf))))
    ∧ DeleteGroupsOp_filter (resolved t groups) true
      = {| mInclude := resolved t groups; mExclude := [] |}.
Proof.
  intros Htwf Hr (g & Hg & Hhas).
  assert (Hin : leaf ∈ t) by (by eapply list_elem_of_lookup_2).
  assert (Hav : resolved t groups ≠ []).
  { destruct (tree_wf_unfold t Htwf) as [_ Hsh].
    destruct t as [|leaf0 rest] eqn:Ht; [by apply not_elem_of_nil in Hin|].
    rewrite <- Ht in *.
    assert (Hd : descriptor (attributeSet leaf) = descriptor (attributeSet leaf0))
      by (apply Hsh; [by rewrite Ht|done]).
    assert (Hmem : g ∈ resolved t groups).
    { rewrite Ht. simpl. apply elem_of_availableGroups. by rewrite <- Hd. }
    intros Hnil. rewrite Hnil in Hmem. by apply not_elem_of_nil in Hmem. }
  destruct (deleteFromGroups_leaf t groups true r leaf Htwf Hr)
    as (leafT & HlT & _ & HpT & _).
  destruct (deleteFromGroups_leaf t groups false r leaf Htwf Hr)
    as (leafF & HlF & _ & HpF & _).
  exists leafT, leafF. split; [done|]. split; [done|].
  rewrite survivors_inverted in HpT by done.
  rewrite survivors_noninverted in HpF by done.
  split; [done|]. split; [done|]. split; [|done].
  intros p Hp. rewrite !list_elem_of_filter, !elem_of_seq, !Is_true_true.
  unfold inNoGroup, inSomeGroup.
  destruct (existsb _ groups); simpl; split; intros; try (intuition (done || lia)).
Qed.

(** C3. Offset-table consistency: after [deleteFromGroups], a leaf that still
    holds points has one offset per voxel, in voxel order (the offset of a
    voxel counts the survivors of the voxels up to it), its offsets are
    non-decreasing, and the last offset is the number of surviving points: the
    leaf holds the old points at the surviving indices, and every attribute
    array of the new store has that length. *)
Theorem offset_table_consistency
    (t : list Leaf) (groups : list string) (invert : bool) (r : nat) (leaf : Leaf) :
  tree_wf t = true ->
  t !! r = Some leaf ->
  exists leaf',
    deleteFromGroups t groups invert !! r = Some leaf'
    ∧ (pointCount leaf' ≠ 0 ->
       length (offsets leaf') = NUM_VALUES
       ∧ (forall (i j a b : nat), i ≤ j ->
            offsets leaf' !! i = Some a -> offsets leaf' !! j = Some b -> a ≤ b)
       ∧ (forall v, v < NUM_VALUES ->
            offsets leaf' !! v
            = Some (length (filter (fun p => p ∈ survivors t groups invert leaf)
                                   (seq 0 (getOffset leaf v)))))
       ∧ last (offsets leaf') = Some (length (survivors t groups invert leaf))
       ∧ points leaf' = row leaf <$> survivors t groups invert leaf
       ∧ Forall (fun arr : list Z => length arr = length (survivors t groups invert leaf))
                (arrays (attributeSet leaf'))).
Proof.
  intros Htwf Hr.
  destruct (deleteFromGroups_leaf t groups invert r leaf Htwf Hr)
    as (leaf' & Hl & Hwf' & Hp & _).
  exists leaf'. split; [done|]. intros Hne.
  destruct (leaf_wf_unfold _ Hwf') as (_ & Hs & _ & Ha).
  assert (Hcount : pointCount leaf' = length (survivors t groups invert leaf)).
  { apply (f_equal length) in Hp. unfold points in Hp.
    by rewrite !length_fmap, length_seq in Hp. }
  pose proof (wf_offsets_length leaf' Hwf' Hne) as HN.
  split; [done|].
  split; [by apply nondecreasing_lookup|].
  split.
  { intros v Hv.
    rewrite <- (deleteFromGroups_offsets t groups invert r leaf leaf' v) by done.
    unfold getOffset.
    destruct (lookup_lt_is_Some_2 (offsets leaf') v) as [o ->]; [lia|done]. }
  rewrite pointCount_lastOffset in Hcount, Hne. unfold lastOffset in *.
  destruct (last (offsets leaf')) as [n|] eqn:Hlast; [|done]. simpl in Hcount.
  rewrite <- Hcount. done.
Qed.

(** C4. Order preservation: the points that [deleteFromGroups] leaves in a
    leaf are exactly the points that are to survive, at consecutive slots and
    in ascending order of their old indices (slot [k] holds the survivor of
    rank [k]), so they keep their relative order; and every voxel of the new
    leaf holds, in that order, the survivors of the same voxel of the old
    leaf. *)
Theorem deleteFromGroups_order_preserved
    (t : list Leaf) (groups : list string) (invert : bool) (r : nat) (leaf : Leaf) :
  tree_wf t = true ->
  t !! r = Some leaf ->
  exists leaf',
    deleteFromGroups t groups invert !! r = Some leaf'
    ∧ points leaf'
      = row leaf <$> filter (fun p => survives leaf groups invert p)
                            (seq 0 (pointCount leaf))
    ∧ (forall k i,
         filter (fun p => survives leaf groups invert p) (seq 0 (pointCount leaf)) !! k
         = Some i ->
         k < pointCount leaf' ∧ row leaf' k = row leaf i)
    ∧ (forall k1 k2 i1 i2,
         filter (fun p => survives leaf groups invert p) (seq 0 (pointCount leaf)) !! k1
         = Some i1 ->
         filter (fun p => survives leaf groups invert p) (seq 0 (pointCount leaf)) !! k2
         = Some i2 ->
         (k1 < k2 <-> i1 < i2))
    ∧ (forall v,
         voxelPoints leaf' v
         = row leaf <$> filter (fun p => survives leaf groups invert p)
                               (beginIndexVoxel leaf v NullFilter)).
Proof.
  intros Htwf Hr.
  assert (Hin : leaf ∈ t) by (by eapply list_elem_of_lookup_2).
  destruct (deleteFromGroups_leaf t groups invert r leaf Htwf Hr)
    as (leaf' & Hl & Hwf' & Hp & Hv).
  destruct (survivors_sorted t groups invert leaf) as [Hsorted Hbound].
  rewrite (survivors_survives t groups invert leaf Htwf Hin) in Hp, Hv, Hsorted.
  set (σ := filter (fun p => survives leaf groups invert p) (seq 0 (pointCount leaf)))
    in *.
  exists leaf'. split; [done|]. split; [done|].
  assert (Hcount : pointCount leaf' = length σ).
  { apply (f_equal length) in Hp. unfold points in Hp.
    by rewrite !length_fmap, length_seq in Hp. }
  split; [|split].
  - intros k i Hk. pose proof (lookup_lt_Some _ _ _ Hk) as Hlt.
    split; [lia|].
    assert (Hrow : points leaf' !! k = Some (row leaf i))
      by (by rewrite Hp, list_lookup_fmap, Hk).
    unfold points in Hrow. rewrite list_lookup_fmap, lookup_seq_lt in Hrow by lia.
    by inversion Hrow.
  - intros k1 k2 i1 i2 H1 H2.
    assert (Hmono : forall a b x y, σ !! a = Some x -> σ !! b = Some y -> a < b -> x < y).
    { intros a b x y Ha Hb Hab. by apply (StronglySorted_lt_lookup σ Hsorted a b x y). }
    split; [by apply Hmono|]. intros Hi.
    destruct (decide (k1 < k2)) as [|Hge]; [done|].
    destruct (decide (k1 = k2)) as [->|Hne].
    + rewrite H1 in H2. inversion H2. lia.
    + pose proof (Hmono k2 k1 i2 i1 H2 H1 ltac:(lia)). lia.
  - intros v. rewrite Hv. f_equal. apply filter_ext_in. intros p Hp'.
    assert (Hp1 : p ∈ beginIndexAll leaf NullFilter).
    { destruct (leaf_wf_unfold leaf) as (_ & Hs & _).
      { destruct (tree_wf_unfold t Htwf) as [Hall _]. rewrite Forall_forall in Hall.
        by apply Hall. }
      by apply (beginIndexVoxel_subseteq leaf NullFilter v). }
    apply elem_of_beginIndexAll in Hp1 as [Hp1 _].
    unfold σ. rewrite list_elem_of_filter, elem_of_seq. intuition lia.
Qed.

(** C5. Group metadata cleanup: after a non-inverted deletion no leaf
    declares a requested group that the tree declared; after an inverted
    deletion every leaf has the descriptor it had; and in the record of the
    run, under any schedule, all leaf mutations come before the group drops,
    which are the resolved names when [invert] is false and none otherwise. *)
Theorem group_metadata_cleanup
    (schedule : list (list nat)) (t : list Leaf) (groups : list string) :
  (forall leaf0 g leaf',
     head t = Some leaf0 -> g ∈ groups ->
     hasGroup (descriptor (attributeSet leaf0)) g = true ->
     leaf' ∈ deleteFromGroups t groups false ->
     hasGroup (descriptor (attributeSet leaf')) g = false)
  ∧ (forall r leaf,
       t !! r = Some leaf ->
       exists leaf',
         deleteFromGroups t groups true !! r = Some leaf'
         ∧ descriptor (attributeSet leaf') = descriptor (attributeSet leaf))
  ∧ (forall invert,
       exists compactions,
         log (deleteFromGroups_run schedule groups invert {| tree := t; log := [] |})
         = compactions
           ++ (if invert then [] else EvDropGroup <$> resolved t groups)
         ∧ Forall (fun e => is_leaf_event e = true) compactions).
Proof.
  split; [|split].
  - intros leaf0 g leaf' Hhd Hg Hhas Hin.
    assert (Hmem : g ∈ resolved t groups).
    { rewrite (resolved_head t leaf0) by done. by apply elem_of_availableGroups. }
    rewrite deleteFromGroups_fmap in Hin.
    apply list_elem_of_fmap in Hin as (leaf & -> & _).
    rewrite decide_False by (intros Hnil; rewrite Hnil in Hmem;
                             by apply not_elem_of_nil in Hmem).
    cbv zeta. unfold hasGroup. apply bool_decide_eq_false_2.
    rewrite Leaf_dropGroups_groupMap, decide_True by done. by intros [? ?].
  - intros r leaf Hr. eexists. split; [by apply deleteFromGroups_lookup|].
    case_decide; [done|]. apply compact_descriptor.
  - intros invert. unfold deleteFromGroups_run. cbn [tree].
    destruct t as [|leaf0 rest].
    { exists []. by destruct invert. }
    cbn [resolved]. cbv zeta.
    set (avail := availableGroups_of (descriptor (attributeSet leaf0)) groups).
    case_decide as Hav.
    { exists []. rewrite Hav. by destruct invert. }
    destruct (parallel_for_log avail invert schedule
                {| tree := leaf0 :: rest; log := [] |}) as (es & Hlog & Hes).
    exists es. split; [|done]. destruct invert.
    + rewrite Hlog. simpl. by rewrite app_nil_r.
    + rewrite dropGroups_eq. cbn [log]. by rewrite Hlog.
Qed.

(** C6. Silent no-op: when the tree has no leaves, or no name is requested,
    or no leaf declares a requested name, [deleteFromGroups] leaves the tree
    as it is and issues no mutation; the embedding has no failure value, a
    run always ends in a state. *)
Theorem deleteFromGroups_noop
    (schedule : list (list nat)) (t : list Leaf) (groups : list string)
    (invert : bool) :
  (t = [] ∨ groups = []
   ∨ forall leaf g, leaf ∈ t -> g ∈ groups ->
       hasGroup (descriptor (attributeSet leaf)) g = false) ->
  deleteFromGroups_run schedule groups invert {| tree := t; log := [] |}
  = {| tree := t; log := [] |}
  ∧ deleteFromGroups t groups invert = t.
Proof.
  intros Hcase.
  assert (Hrun : forall s,
    deleteFromGroups_run s groups invert {| tree := t; log := [] |}
    = {| tree := t; log := [] |}).
  { intros s. apply deleteFromGroups_run_noop. cbn [tree].
    destruct Hcase as [? | [? | Hnone]]; [by left|by right; left|].
    right; right. intros leaf0 Hhd g Hg. apply Hnone; [|done].
    destruct t; [done|]. simpl in Hhd. inversion Hhd. left. }
  split; [apply Hrun|]. unfold deleteFromGroups. by rewrite Hrun.
Qed.

(** C7. Per-region edge cases: on a leaf without points the loop body does
    nothing; on a leaf with points of which none matches the survivor filter
    its only mutator call is [clearAttributes], which leaves the leaf without
    attribute arrays and without points, and no offset table is installed. *)
Theorem region_edge_cases
    (filter : MultiGroupFilter) (n : nat) (st : State) (leaf : Leaf) :
  tree st !! n = Some leaf ->
  (pointCount leaf = 0 -> DeleteGroupsOp_leaf filter n st = st)
  ∧ (pointCount leaf ≠ 0 ->
     iterCount (beginIndexAll leaf (MultiGroupFilter_valid filter (attributeSet leaf))) = 0 ->
     DeleteGroupsOp_body filter leaf = [ClearAttributes]
     ∧ log (DeleteGroupsOp_leaf filter n st) = log st ++ [EvLeaf n ClearAttributes]
     ∧ tree (DeleteGroupsOp_leaf filter n st) = <[n := clearAttributes leaf]> (tree st)
     ∧ arrays (attributeSet (clearAttributes leaf)) = []
     ∧ pointCount (clearAttributes leaf) = 0).
Proof.
  intros Hn. split.
  - intros Hz. unfold DeleteGroupsOp_leaf. by rewrite Hn, body_skip.
  - intros Hnz Hnone.
    assert (Hnil : beginIndexAll leaf (MultiGroupFilter_valid filter (attributeSet leaf))
                   = []) by (by apply nil_length_inv).
    pose proof (body_clear filter leaf Hnz Hnil) as Hbody.
    split; [done|]. unfold DeleteGroupsOp_leaf. rewrite Hn, Hbody. simpl.
    split; [done|]. split; [|split; [done|apply pointCount_clear]].
    apply list_eq. intros i. destruct (decide (i = n)) as [->|Hne].
    + rewrite list_lookup_alter_eq, Hn. simpl.
      by rewrite list_lookup_insert_eq by (by eapply lookup_lt_Some).
    + by rewrite list_lookup_alter_ne, list_lookup_insert_ne.
Qed.

(** C8. Replacement as the last step: on a leaf that keeps points, the calls
    that the parallel loop makes on the leaf are two, [replaceAttributeSet]
    with the rebuilt store and then [setOffsets] with the rebuilt table; they
    are the last, and they leave the leaf with that store and that table.  No
    other loop body touches the leaf, so wherever the run stands between two
    loop bodies the leaf pairs its old store with its old table, or the new
    store with the new table. *)
Theorem replacement_last_step
    (names : list string) (invert : bool) (schedule : list (list nat))
    (t : list Leaf) (n : nat) (leaf : Leaf) (done rest : list nat) :
  valid_schedule schedule (length t) ->
  t !! n = Some leaf ->
  concat schedule = done ++ rest ->
  pointCount leaf ≠ 0 ->
  iterCount (beginIndexAll leaf
               (MultiGroupFilter_valid (DeleteGroupsOp_filter names invert)
                  (attributeSet leaf))) ≠ 0 ->
  exists newAttributeSet newOffsets,
    leaf_events n (log (parallel_for schedule (DeleteGroupsOp names invert)
                          {| tree := t; log := [] |}))
    = [ReplaceAttributeSet newAttributeSet; SetOffsets newOffsets]
    ∧ tree (parallel_for schedule (DeleteGroupsOp names invert)
              {| tree := t; log := [] |}) !! n
      = Some {| attributeSet := newAttributeSet; offsets := newOffsets |}
    ∧ (leaf_wf leaf = true ->
       {| attributeSet := newAttributeSet; offsets := newOffsets |}
       = rebuilt_leaf leaf
           (MultiGroupFilter_valid (DeleteGroupsOp_filter names invert)
              (attributeSet leaf)))
    ∧ exists s,
        tree (foldl (fun st m =>
                       DeleteGroupsOp_leaf (DeleteGroupsOp_filter names invert) m st)
                {| tree := t; log := [] |} done) !! n = Some s
        ∧ ((attributeSet s = attributeSet leaf ∧ offsets s = offsets leaf)
           ∨ (attributeSet s = newAttributeSet ∧ offsets s = newOffsets)).
Proof.
  intros Hvalid Hn Hsplit Hnz Hsome.
  set (f := DeleteGroupsOp_filter names invert) in *.
  assert (Hbody : exists a o,
            DeleteGroupsOp_body f leaf = [ReplaceAttributeSet a; SetOffsets o]).
  { unfold DeleteGroupsOp_body. fold (pointCount leaf).
    rewrite !decide_False by done. by eexists _, _. }
  destruct Hbody as (a & o & Hbody).
  assert (Hcompact : compact_leaf f leaf = {| attributeSet := a; offsets := o |}).
  { unfold compact_leaf. by rewrite Hbody. }
  exists a, o. split; [|split; [|split]].
  - by rewrite (parallel_for_leaf_events names invert schedule t n leaf).
  - rewrite parallel_for_tree by done. cbn [tree].
    by rewrite list_lookup_fmap, Hn, <- Hcompact.
  - intros Hwf. rewrite <- Hcompact. apply compact_leaf_rebuilt_form; [done|].
    intros Hnil. fold f in Hnil. by rewrite Hnil in Hsome.
  - assert (Hnd : NoDup done).
    { unfold valid_schedule in Hvalid. rewrite Hsplit in Hvalid.
      assert (Hnd : NoDup (done ++ rest)) by (rewrite Hvalid; apply NoDup_seq).
      by apply NoDup_app in Hnd as (? & _). }
    rewrite (foldl_leaf_lookup f done Hnd). cbn [tree]. rewrite Hn.
    case_decide.
    + eexists. split; [reflexivity|]. right. by rewrite Hcompact.
    + eexists. split; [reflexivity|]. by left.
Qed.

(** C9. Duplicate tolerance: a list of names with duplicates yields the same
    tree, points and group metadata, as the list without them. *)
Theorem deleteFromGroups_duplicates
    (t : list Leaf) (groups : list string) (invert : bool) :
  deleteFromGroups t groups invert = deleteFromGroups t (remove_dups groups) invert.
Proof.
  rewrite !deleteFromGroups_fmap.
  pose proof (resolved_same_elements t groups) as Hsame.
  apply list_fmap_ext. intros _ leaf _.
  destruct (decide (resolved t groups = [])) as [Hnil|Hsome].
  - rewrite decide_True; [done|]. by apply (same_elements_nil _ _ Hsame).
  - rewrite decide_False by (by rewrite <- (same_elements_nil _ _ Hsame)).
    cbv zeta.
    assert (Hc : compact_leaf (DeleteGroupsOp_filter (resolved t groups) invert) leaf
                 = compact_leaf
                     (DeleteGroupsOp_filter (resolved t (remove_dups groups)) invert)
                     leaf).
    { unfold compact_leaf.
      rewrite (DeleteGroupsOp_body_ext
                 (DeleteGroupsOp_filter (resolved t groups) invert)
                 (DeleteGroupsOp_filter (resolved t (remove_dups groups)) invert));
        [done|].
      intros i. by apply valid_same_elements. }
    rewrite Hc. destruct invert; [done|].
    by apply Leaf_dropGroups_same_elements.
Qed.

(** C10. Region-order independence: any two schedules that visit every leaf
    once leave the same tree, the one of the sequential run; the loop body
    changes no leaf but its own, and what it makes of its leaf depends on no
    other leaf; and any interleaving of the leaf mutations of a run that keeps
    the order of the mutations of each leaf leaves that tree too. *)
Theorem deleteFromGroups_schedule_independent
    (schedule1 schedule2 : list (list nat)) (t : list Leaf)
    (groups : list string) (invert : bool) :
  valid_schedule schedule1 (length t) ->
  valid_schedule schedule2 (length t) ->
  tree (deleteFromGroups_run schedule1 groups invert {| tree := t; log := [] |})
  = tree (deleteFromGroups_run schedule2 groups invert {| tree := t; log := [] |})
  ∧ tree (deleteFromGroups_run schedule1 groups invert {| tree := t; log := [] |})
    = deleteFromGroups t groups invert
  ∧ (forall filter n m st, m ≠ n ->
       tree (DeleteGroupsOp_leaf filter n st) !! m = tree st !! m)
  ∧ (forall filter n st1 st2, tree st1 !! n = tree st2 !! n ->
       tree (DeleteGroupsOp_leaf filter n st1) !! n
       = tree (DeleteGroupsOp_leaf filter n st2) !! n)
  ∧ (forall names es,
       Forall (fun e => is_leaf_event e = true) es ->
       (forall n, leaf_events n es
                  = leaf_events n (log (parallel_for schedule1
                                          (DeleteGroupsOp names invert)
                                          {| tree := t; log := [] |}))) ->
       exec es t
       = tree (parallel_for schedule2 (DeleteGroupsOp names invert)
                 {| tree := t; log := [] |})).
Proof.
  intros Hv1 Hv2. split; [by rewrite !run_fmap|].
  split; [by rewrite run_fmap, deleteFromGroups_fmap|]. split.
  - intros filter n m st Hne. rewrite DeleteGroupsOp_leaf_tree.
    by apply list_lookup_alter_ne.
  - split.
    { intros filter n st1 st2 Hsame.
      by rewrite !DeleteGroupsOp_leaf_tree, !list_lookup_alter_eq, Hsame. }
    intros names es Hes Hsame. rewrite parallel_for_tree by done. cbn [tree].
    apply list_eq. intros i. rewrite exec_leaf_lookup by done.
    rewrite list_lookup_fmap. destruct (t !! i) as [leaf|] eqn:Hi; [|done].
    simpl. f_equal. rewrite Hsame.
    by rewrite (parallel_for_leaf_events names invert schedule1 t i leaf).
Qed.

End Claims.

(** ** The claims on the small instance *)

Section DemoFacts.
Import Demo.
Local Existing Instance traits.
Local Open Scope string_scope.

(** Scenario 1: deleting group A keeps points 1 and 3 and drops the group. *)
Example scenario_delete_A :
  deleteFromGroup [leaf4] "A" false
  = [ {| attributeSet := {| descriptor := {| groupMap := ∅ |};
                            arrays := [[11; 13]; [0; 0]]%Z |};
         offsets := [0; 0; 1; 2] |} ].
Proof. reflexivity. Qed.

(** Scenario 2: the inverted deletion keeps points 0 and 2, group A stays. *)
Example scenario_delete_A_inverted :
  deleteFromGroup [leaf4] "A" true
  = [ {| attributeSet := {| descriptor := desc; arrays := [[10; 12]; [1; 1]]%Z |};
         offsets := [1; 1; 2; 2] |} ].
Proof. reflexivity. Qed.

(** Scenario 3: when every point is in group A the leaf becomes empty. *)
Example scenario_delete_all :
  deleteFromGroup [leafAll] "A" false
  = [ {| attributeSet := {| descriptor := {| groupMap := ∅ |}; arrays := [] |};
         offsets := [] |} ].
Proof. reflexivity. Qed.

(** Scenario 4: a group that is not declared. *)
Example scenario_unknown_group : deleteFromGroup tree3 "B" false = tree3.
Proof. reflexivity. Qed.

(** The record of a non-inverted run on the three leaves: the first leaf is
    rebuilt, the second cleared, the third skipped, then the group is
    dropped. *)
Example record_delete_A :
  log (deleteFromGroups_run (leafRange tree3) ["A"] false {| tree := tree3; log := [] |})
  = [ EvLeaf 0 (ReplaceAttributeSet
                  {| descriptor := desc; arrays := [[11; 13]; [0; 0]]%Z |});
      EvLeaf 0 (SetOffsets [0; 0; 1; 2]);
      EvLeaf 1 ClearAttributes;
      EvDropGroup "A" ].
Proof. reflexivity. Qed.

Lemma deleteFromGroups_completeness_witness :
  tree_wf tree3 = true
  ∧ exists leaf',
      deleteFromGroups tree3 ["A"] false !! 0 = Some leaf'
      ∧ points leaf' = [[11; 0]; [13; 0]]%Z.
Proof.
  split; [reflexivity|].
  destruct (deleteFromGroups_completeness tree3 ["A"] 0 leaf4)
    as (leaf' & Hl & Hp & _); [reflexivity|reflexivity|].
  exists leaf'. split; [exact Hl|]. rewrite Hp. reflexivity.
Defined.

Lemma deleteFromGroups_inversion_witness :
  exists leafT leafF,
    deleteFromGroups tree3 ["A"] true !! 0 = Some leafT
    ∧ deleteFromGroups tree3 ["A"] false !! 0 = Some leafF
    ∧ points leafT = [[10; 1]; [12; 1]]%Z
    ∧ points leafF = [[11; 0]; [13; 0]]%Z.
Proof.
  destruct (deleteFromGroups_inversion tree3 ["A"] 0 leaf4)
    as (leafT & leafF & HT & HF & HpT & HpF & _); [reflexivity|reflexivity| |].
  - exists "A". split; [left|reflexivity].
  - exists leafT, leafF. rewrite HpT, HpF. repeat split; (exact HT || exact HF || reflexivity).
Defined.

(** C2 as stated fails when no requested group is declared: both runs return
    at once and delete nothing, so the inverted run keeps four points of
    which none is in a requested group. *)
Lemma deleteFromGroups_inversion_counterexample :
  tree_wf tree3 = true
  ∧ tree3 !! 0 = Some leaf4
  ∧ ~ (exists leafT leafF,
         deleteFromGroups tree3 ["B"] true !! 0 = Some leafT
         ∧ deleteFromGroups tree3 ["B"] false !! 0 = Some leafF
         ∧ points leafT
           = row leaf4 <$> filter (fun p => inSomeGroup leaf4 ["B"] p)
                                  (seq 0 (pointCount leaf4))
         ∧ points leafF
           = row leaf4 <$> filter (fun p => inNoGroup leaf4 ["B"] p)
                                  (seq 0 (pointCount leaf4))
         ∧ (forall p, p < pointCount leaf4 ->
              (p ∈ filter (fun p => inSomeGroup leaf4 ["B"] p) (seq 0 (pointCount leaf4))
               <-> p ∉ filter (fun p => inNoGroup leaf4 ["B"] p)
                              (seq 0 (pointCount leaf4))))
         ∧ DeleteGroupsOp_filter (resolved tree3 ["B"]) true
           = {| mInclude := resolved tree3 ["B"]; mExclude := [] |}).
Proof.
  split; [reflexivity|]. split; [reflexivity|].
  intros (leafT & leafF & HT & _ & HpT & _).
  vm_compute in HT. inversion HT; subst leafT. vm_compute in HpT. discriminate.
Qed.

Lemma offset_table_consistency_witness :
  exists leaf',
    deleteFromGroups tree3 ["A"] false !! 0 = Some leaf'
    ∧ length (offsets leaf') = 4
    ∧ last (offsets leaf') = Some 2
    ∧ Forall (fun arr : list Z => length arr = 2) (arrays (attributeSet leaf')).
Proof.
  destruct (offset_table_consistency tree3 ["A"] false 0 leaf4)
    as (leaf' & Hl & Hinv); [reflexivity|reflexivity|].
  exists leaf'. split; [exact Hl|].
  destruct Hinv as (HN & _ & _ & Hlast & _ & Harr).
  - vm_compute in Hl. inversion Hl. vm_compute. discriminate.
  - repeat split; [exact HN|exact Hlast|exact Harr].
Defined.

Lemma deleteFromGroups_order_preserved_witness :
  exists leaf',
    deleteFromGroups tree3 ["A"] true !! 0 = Some leaf'
    ∧ points leaf' = [[10; 1]; [12; 1]]%Z
    ∧ voxelPoints leaf' 0 = [[10; 1]]%Z
    ∧ voxelPoints leaf' 2 = [[12; 1]]%Z.
Proof.
  destruct (deleteFromGroups_order_preserved tree3 ["A"] true 0 leaf4)
    as (leaf' & Hl & Hp & _ & _ & Hv); [reflexivity|reflexivity|].
  exists leaf'. rewrite Hp, !Hv. repeat split; (exact Hl || reflexivity).
Defined.

Lemma deleteFromGroups_noop_witness :
  deleteFromGroups_run [[2]; [0; 1]] ["B"] true {| tree := tree3; log := [] |}
  = {| tree := tree3; log := [] |}
  ∧ deleteFromGroups tree3 ["B"] true = tree3.
Proof.
  apply (deleteFromGroups_noop [[2]; [0; 1]] tree3 ["B"] true).
  right; right. intros leaf g Hleaf Hg.
  apply list_elem_of_singleton in Hg. subst g.
  unfold tree3 in Hleaf.
  repeat (apply elem_of_cons in Hleaf as [->|Hleaf]; [reflexivity|]).
  by apply not_elem_of_nil in Hleaf.
Defined.

Lemma region_edge_cases_witness :
  DeleteGroupsOp_leaf (DeleteGroupsOp_filter ["A"] false) 2
    {| tree := tree3; log := [] |} = {| tree := tree3; log := [] |}
  ∧ log (DeleteGroupsOp_leaf (DeleteGroupsOp_filter ["A"] false) 1
           {| tree := tree3; log := [] |})
    = [EvLeaf 1 ClearAttributes].
Proof.
  split.
  - apply (region_edge_cases (DeleteGroupsOp_filter ["A"] false) 2
             {| tree := tree3; log := [] |} leafEmpty); reflexivity.
  - apply (region_edge_cases (DeleteGroupsOp_filter ["A"] false) 1
             {| tree := tree3; log := [] |} leafAll); [reflexivity| |reflexivity].
    vm_compute. discriminate.
Defined.

Lemma replacement_last_step_witness :
  exists newAttributeSet newOffsets,
    leaf_events 0 (log (parallel_for [[2]; [0; 1]] (DeleteGroupsOp ["A"] false)
                          {| tree := tree3; log := [] |}))
    = [ReplaceAttributeSet newAttributeSet; SetOffsets newOffsets]
    ∧ arrays newAttributeSet = [[11; 13]; [0; 0]]%Z
    ∧ newOffsets = [0; 0; 1; 2].
Proof.
  destruct (replacement_last_step ["A"] false [[2]; [0; 1]] tree3 0 leaf4 [2; 0] [1])
    as (a & o & Hcalls & _ & Hform & _).
  - unfold valid_schedule. exact (Permutation_app_comm [2] [0; 1]).
  - reflexivity.
  - reflexivity.
  - vm_compute. discriminate.
  - vm_compute. discriminate.
  - exists a, o. split; [exact Hcalls|].
    specialize (Hform eq_refl).
    split; [exact (f_equal (fun l => arrays (attributeSet l)) Hform)
           |exact (f_equal offsets Hform)].
Defined.

Lemma deleteFromGroups_schedule_independent_witness :
  tree (deleteFromGroups_run [[0; 1; 2]] ["A"] false {| tree := tree3; log := [] |})
  = tree (deleteFromGroups_run [[2]; [0; 1]] ["A"] false {| tree := tree3; log := [] |}).
Proof.
  apply (deleteFromGroups_schedule_independent [[0; 1; 2]] [[2]; [0; 1]] tree3 ["A"] false).
  - unfold valid_schedule. reflexivity.
  - unfold valid_schedule. exact (Permutation_app_comm [2] [0; 1]).
Defined.

End DemoFacts.

(** * Further properties *)

(** ** Group membership across a compaction *)

Section Membership.
Context `{LeafTraits}.

Lemma gather_lookup src σ k i :
  σ !! k = Some i -> gather src σ !! k = Some (default 0%Z (src !! i)).
Proof. intros Hk. unfold gather. by rewrite list_lookup_fmap, Hk. Qed.

Lemma gather_all src : gather src (seq 0 (length src)) = src.
Proof.
  apply list_eq. intros i. unfold gather. rewrite list_lookup_fmap.
  destruct (src !! i) as [v|] eqn:Hi.
  - rewrite lookup_seq_lt by (by eapply lookup_lt_Some). simpl. by rewrite Hi.
  - rewrite lookup_seq_ge by (by apply lookup_ge_None). done.
Qed.

Lemma inGroup_out_of_range leaf g i :
  leaf_wf leaf = true -> pointCount leaf ≤ i -> inGroup (attributeSet leaf) g i = false.
Proof.
  intros Hwf Hi. destruct (leaf_wf_unfold _ Hwf) as (_ & _ & _ & Ha).
  unfold inGroup. destruct (groupMap _ !! g) as [col|]; [|done].
  destruct (arrays _ !! col) as [arr|] eqn:Hcol; [|done].
  rewrite Forall_forall in Ha.
  rewrite (lookup_ge_None_2 arr i); [done|].
  rewrite (Ha arr) by (by eapply list_elem_of_lookup_2).
  by rewrite <- pointCount_lastOffset.
Qed.

(** The rebuilt leaf holds, at slot [k], the group flags of the point it was
    copied from. *)
Lemma inGroup_rebuilt leaf valid g k i :
  leaf_wf leaf = true ->
  beginIndexAll leaf valid !! k = Some i ->
  inGroup (attributeSet (rebuilt_leaf leaf valid)) g k = inGroup (attributeSet leaf) g i.
Proof.
  intros Hwf Hk. destruct (leaf_wf_unfold _ Hwf) as (_ & _ & _ & Ha).
  assert (Hi : i < lastOffset leaf).
  { apply list_elem_of_lookup_2, elem_of_beginIndexAll in Hk as [Hi _].
    by rewrite <- pointCount_lastOffset. }
  unfold inGroup, rebuilt_leaf. cbn [attributeSet descriptor arrays].
  destruct (groupMap _ !! g) as [col|]; [|done].
  rewrite list_lookup_fmap.
  destruct (arrays (attributeSet leaf) !! col) as [arr|] eqn:Hcol; [|done].
  cbn [fmap option_fmap option_map]. rewrite (gather_lookup arr _ k i Hk).
  rewrite Forall_forall in Ha.
  destruct (lookup_lt_is_Some_2 arr i) as [v ->]; [|done].
  rewrite (Ha arr) by (by eapply list_elem_of_lookup_2). done.
Qed.

Lemma inGroup_compact f leaf g k i :
  leaf_wf leaf = true ->
  beginIndexAll leaf (MultiGroupFilter_valid f (attributeSet leaf)) !! k = Some i ->
  inGroup (attributeSet (compact_leaf f leaf)) g k = inGroup (attributeSet leaf) g i.
Proof.
  intros Hwf Hk.
  destruct (compact_leaf_cases f leaf Hwf)
    as [[Hz Hc] | [(Hnz & Hnil & Hc) | (Hnz & Hsome & HN & Hc)]].
  - by rewrite (beginIndexAll_empty leaf _ Hz) in Hk.
  - by rewrite Hnil in Hk.
  - rewrite Hc. by apply inGroup_rebuilt.
Qed.

Lemma inGroup_dropGroups gs leaf g i :
  inGroup (attributeSet (Leaf_dropGroups gs leaf)) g i
  = if decide (g ∈ gs) then false else inGroup (attributeSet leaf) g i.
Proof.
  unfold inGroup. rewrite Leaf_dropGroups_groupMap.
  destruct (Leaf_dropGroups_arrays gs leaf) as [-> _].
  by destruct (decide (g ∈ gs)).
Qed.

(** A well-formed leaf whose points all match the filter is rebuilt as it
    was. *)
Lemma rebuilt_leaf_all leaf valid :
  leaf_wf leaf = true -> length (offsets leaf) = NUM_VALUES ->
  (forall i, i < pointCount leaf -> valid i = true) ->
  rebuilt_leaf leaf valid = leaf.
Proof.
  intros Hwf HN Hall. destruct (leaf_wf_unfold _ Hwf) as (_ & Hs & _ & Ha).
  assert (Hfilter : forall x, x ≤ lastOffset leaf ->
            filter (fun i => valid i) (seq 0 x) = seq 0 x).
  { intros x Hx. apply filter_Forall_id, Forall_forall. intros i Hi.
    apply elem_of_seq in Hi. apply Is_true_true, Hall.
    rewrite pointCount_lastOffset. lia. }
  unfold rebuilt_leaf. destruct leaf as [[d arrs] offs]. cbn [attributeSet descriptor arrays offsets] in *.
  f_equal; [f_equal|].
  - unfold beginIndexAll. rewrite Hfilter by done.
    rewrite <- (list_fmap_id arrs) at 2. apply Forall_fmap_ext.
    eapply Forall_impl; [exact Ha|]. intros src Hsrc. simpl.
    rewrite <- Hsrc. apply gather_all.
  - apply list_eq. intros v. rewrite list_lookup_fmap.
    destruct (offs !! v) as [o|] eqn:Hv.
    + rewrite lookup_seq_lt by (apply lookup_lt_Some in Hv; lia). simpl.
      pose proof (getOffset_le_last {| attributeSet := {| descriptor := d; arrays := arrs |};
                                       offsets := offs |} v Hs) as Hle.
      rewrite Hfilter by done. rewrite length_seq. unfold getOffset. simpl. by rewrite Hv.
    + rewrite lookup_seq_ge by (apply lookup_ge_None in Hv; lia). done.
Qed.

Lemma compact_leaf_all f leaf :
  leaf_wf leaf = true ->
  (forall i, i < pointCount leaf ->
     MultiGroupFilter_valid f (attributeSet leaf) i = true) ->
  compact_leaf f leaf = leaf.
Proof.
  intros Hwf Hall.
  destruct (compact_leaf_cases f leaf Hwf)
    as [[Hz Hc] | [(Hnz & Hnil & Hc) | (Hnz & Hsome & HN & Hc)]].
  - done.
  - exfalso. assert (Hin : 0 ∈ beginIndexAll leaf (MultiGroupFilter_valid f (attributeSet leaf))).
    { apply elem_of_beginIndexAll. split; [lia|]. apply Hall. lia. }
    rewrite Hnil in Hin. by apply not_elem_of_nil in Hin.
  - rewrite Hc. by apply rebuilt_leaf_all.
Qed.

End Membership.

(** ** What a deletion leaves alone, and the bounds of the copy loop *)

Section FrameAndBounds.
Context `{LeafTraits}.

Lemma resolved_nil_iff t groups :
  resolved t groups = []
  <-> forall leaf0 g, head t = Some leaf0 -> g ∈ groups ->
        hasGroup (descriptor (attributeSet leaf0)) g = false.
Proof.
  destruct t as [|l0 rest]; simpl.
  - split; [intros _ ? ? Hhd; done|done].
  - split.
    + intros Hnil leaf0 g Hhd Hg. inversion Hhd; subst leaf0.
      destruct (hasGroup (descriptor (attributeSet l0)) g) eqn:Hhas; [|done].
      assert (Hin : g ∈ availableGroups_of (descriptor (attributeSet l0)) groups)
        by (by apply elem_of_availableGroups).
      rewrite Hnil in Hin. by apply not_elem_of_nil in Hin.
    + intros Hnone.
      destruct (availableGroups_of _ groups) as [|g l] eqn:Hav; [done|].
      assert (Hin : g ∈ availableGroups_of (descriptor (attributeSet l0)) groups)
        by (rewrite Hav; left).
      apply elem_of_availableGroups in Hin as [Hg Hhas].
      by rewrite (Hnone l0 g eq_refl Hg) in Hhas.
Qed.

Lemma deleteFromGroups_resolved_nil t groups invert :
  resolved t groups = [] -> deleteFromGroups t groups invert = t.
Proof.
  intros Hnil. rewrite deleteFromGroups_fmap.
  rewrite <- (list_fmap_id t) at 2. apply list_fmap_ext. intros _ leaf _.
  by rewrite decide_True.
Qed.

Lemma elem_of_resolved t groups g :
  g ∈ resolved t groups
  <-> exists leaf0, head t = Some leaf0 ∧ g ∈ groups
                    ∧ hasGroup (descriptor (attributeSet leaf0)) g = true.
Proof.
  destruct t as [|l0 rest]; simpl.
  - split; [intros Hin; by apply not_elem_of_nil in Hin|by intros (? & ? & _)].
  - rewrite elem_of_availableGroups. split.
    + intros [? ?]. by exists l0.
    + intros (leaf0 & Hhd & ? & ?). by inversion Hhd; subst.
Qed.

(** X1. [deleteFromGroups] keeps every leaf of the tree, also the ones it
    empties; it never declares a group, and a name that was not requested
    stays declared exactly as it was. *)
Theorem deleteFromGroups_metadata_frame
    (t : list Leaf) (groups : list string) (invert : bool) (r : nat) (leaf : Leaf) :
  t !! r = Some leaf ->
  length (deleteFromGroups t groups invert) = length t
  ∧ exists leaf',
      deleteFromGroups t groups invert !! r = Some leaf'
      ∧ (forall g, g ∉ groups ->
           groupMap (descriptor (attributeSet leaf')) !! g
           = groupMap (descriptor (attributeSet leaf)) !! g)
      ∧ (forall g, hasGroup (descriptor (attributeSet leaf')) g = true ->
           hasGroup (descriptor (attributeSet leaf)) g = true).
Proof.
  intros Hr. split; [by rewrite deleteFromGroups_fmap, length_fmap|].
  eexists. split; [by apply deleteFromGroups_lookup|].
  case_decide as Hav; [done|]. cbv zeta. destruct invert.
  - rewrite compact_descriptor. done.
  - split.
    + intros g Hg. rewrite Leaf_dropGroups_groupMap, compact_descriptor.
      rewrite decide_False; [done|].
      intros Hin. apply elem_of_resolved in Hin as (_ & _ & ? & _). done.
    + intros g. unfold hasGroup. rewrite !bool_decide_eq_true.
      rewrite Leaf_dropGroups_groupMap, compact_descriptor.
      case_decide; [by intros [? ?]|done].
Qed.

(** X2. The invariants of the data model are kept by any sequence of
    deletions: after each call the tree is well-formed again. *)
Theorem deletions_keep_invariants
    (t : list Leaf) (calls : list (list string * bool)) :
  tree_wf t = true ->
  tree_wf (foldl (fun t call => deleteFromGroups t call.1 call.2) t calls) = true.
Proof.
  revert t. induction calls as [|[groups invert] calls IH]; intros t Hwf; [done|].
  cbn [foldl]. apply IH. by apply deleteFromGroups_wf.
Qed.

(** X3. Bounds of the copy loop on a well-formed leaf: after any number of
    voxels the destination cursor is within the size the new store was
    allocated with, at the end it is exactly that size, every new array has
    that length, and every index the voxel iterators yield lies within every
    existing array. *)
Theorem copy_loop_in_bounds (leaf : Leaf) (valid : nat -> bool) :
  leaf_wf leaf = true ->
  length (offsets leaf) = NUM_VALUES ->
  (forall k, k ≤ NUM_VALUES ->
     attributeIndex
       (foldl (voxel_step leaf valid)
          {| newAttributeArrays :=
               arrays (AttributeSet_sized (attributeSet leaf)
                         (iterCount (beginIndexAll leaf valid)));
             attributeIndex := 0; endOffsets := [] |} (seq 0 k))
     ≤ iterCount (beginIndexAll leaf valid))
  ∧ attributeIndex (rebuild leaf valid (iterCount (beginIndexAll leaf valid)))
    = iterCount (beginIndexAll leaf valid)
  ∧ Forall (fun arr : list Z => length arr = iterCount (beginIndexAll leaf valid))
           (newAttributeArrays
              (rebuild leaf valid (iterCount (beginIndexAll leaf valid))))
  ∧ (forall v iter, iter ∈ beginIndexVoxel leaf v valid ->
       Forall (fun src : list Z => iter < length src) (arrays (attributeSet leaf))).
Proof.
  intros Hwf HN. destruct (leaf_wf_unfold _ Hwf) as (_ & Hs & _ & Ha).
  assert (Hsrc : forall iter, iter ∈ beginIndexAll leaf valid ->
            Forall (fun src : list Z => iter < length src) (arrays (attributeSet leaf))).
  { intros iter Hin. apply elem_of_beginIndexAll in Hin as [Hin _].
    rewrite pointCount_lastOffset in Hin.
    eapply Forall_impl; [exact Ha|]. simpl. by intros src ->. }
  split; [|split; [|split]].
  - intros k Hk.
    assert (Hlen : length (kept leaf valid k) ≤ iterCount (beginIndexAll leaf valid)).
    { rewrite kept_filter by (done || lia). unfold iterCount, beginIndexAll.
      apply (survivors_below_mono valid). by apply voxelStart_le_last. }
    rewrite rebuild_prefix; [done|done|].
    apply Forall_forall. intros iter Hin. apply Hsrc.
    rewrite kept_filter in Hin by (done || lia). unfold beginIndexAll.
    apply list_elem_of_filter in Hin as [Hv Hin]. apply list_elem_of_filter.
    split; [done|]. apply elem_of_seq in Hin. apply elem_of_seq.
    pose proof (voxelStart_le_last leaf k Hs). lia.
  - by rewrite rebuild_wf.
  - rewrite rebuild_wf by done. cbn [newAttributeArrays rebuilt_leaf attributeSet arrays].
    apply Forall_fmap, Forall_forall. intros src _. simpl. apply length_gather.
  - intros v iter Hin. apply Hsrc. by apply (beginIndexVoxel_subseteq leaf valid v).
Qed.

(** X4. A leaf whose points all match the survivor filter is not skipped: the
    loop body still replaces the store and the table, by a store and a table
    equal to the old ones. *)
Theorem all_survive_rebuild_identity (filter : MultiGroupFilter) (leaf : Leaf) :
  leaf_wf leaf = true ->
  pointCount leaf ≠ 0 ->
  (forall i, i < pointCount leaf ->
     MultiGroupFilter_valid filter (attributeSet leaf) i = true) ->
  DeleteGroupsOp_body filter leaf
  = [ReplaceAttributeSet (attributeSet leaf); SetOffsets (offsets leaf)]
  ∧ compact_leaf filter leaf = leaf.
Proof.
  intros Hwf Hnz Hall. split; [|by apply compact_leaf_all].
  assert (Hsome : beginIndexAll leaf (MultiGroupFilter_valid filter (attributeSet leaf))
                  ≠ []).
  { intros Hnil.
    assert (Hin : 0 ∈ beginIndexAll leaf
                        (MultiGroupFilter_valid filter (attributeSet leaf))).
    { apply elem_of_beginIndexAll. split; [lia|]. apply Hall. lia. }
    rewrite Hnil in Hin. by apply not_elem_of_nil in Hin. }
  rewrite body_rebuild by done.
  by rewrite rebuilt_leaf_all by (done || by apply wf_offsets_length).
Qed.

End FrameAndBounds.

(** ** Repeated deletions *)

Section Repetition.
Context `{LeafTraits}.

Lemma fmap_id_in {A} (f : A -> A) (l : list A) :
  (forall x, x ∈ l -> f x = x) -> f <$> l = l.
Proof.
  intros Hid. rewrite <- (list_fmap_id l) at 2.
  apply Forall_fmap_ext, Forall_forall. intros x Hx. by apply Hid.
Qed.

Lemma existsb_pointwise {A} (p q : A -> bool) (l : list A) :
  (forall x, p x = q x) -> existsb p l = existsb q l.
Proof. intros Hpq. induction l as [|x l IH]; [done|]. simpl. by rewrite Hpq, IH. Qed.

(** The filter looks at a point through its group flags only. *)
Lemma valid_congr f a a' k i :
  (forall g, inGroup a g k = inGroup a' g i) ->
  MultiGroupFilter_valid f a k = MultiGroupFilter_valid f a' i.
Proof.
  intros Hsame. unfold MultiGroupFilter_valid.
  by rewrite !(existsb_pointwise (fun g => inGroup a g k) (fun g => inGroup a' g i)).
Qed.

Lemma tree_wf_leaf t leaf :
  tree_wf t = true -> leaf ∈ t ->
  leaf_wf leaf = true
  ∧ forall leaf0, head t = Some leaf0 ->
      descriptor (attributeSet leaf) = descriptor (attributeSet leaf0).
Proof.
  intros Htwf Hin. destruct (tree_wf_unfold t Htwf) as [Hall Hsh]. split.
  - rewrite Forall_forall in Hall. by apply Hall.
  - intros leaf0 Hhd. by apply Hsh.
Qed.

Lemma not_resolved_undeclared t groups leaf g :
  tree_wf t = true -> leaf ∈ t -> g ∈ groups -> g ∉ resolved t groups ->
  hasGroup (descriptor (attributeSet leaf)) g = false.
Proof.
  intros Htwf Hin Hg Hout. destruct (tree_wf_leaf t leaf Htwf Hin) as [_ Hd].
  destruct (head t) as [leaf0|] eqn:Hhd.
  - rewrite (Hd leaf0 eq_refl).
    destruct (hasGroup (descriptor (attributeSet leaf0)) g) eqn:Hhas; [|done].
    destruct Hout. apply elem_of_resolved. by exists leaf0.
  - destruct t; [by apply not_elem_of_nil in Hin|done].
Qed.

(** X5. Every surviving point keeps its group flags: after an inverted
    deletion its membership in every group is the one it had; after a
    non-inverted deletion it is in no requested group and its membership in
    every other group is the one it had. *)
Theorem survivors_keep_membership
    (t : list Leaf) (groups : list string) (invert : bool) (r : nat) (leaf : Leaf) :
  tree_wf t = true ->
  t !! r = Some leaf ->
  exists leaf',
    deleteFromGroups t groups invert !! r = Some leaf'
    ∧ points leaf' = row leaf <$> survivors t groups invert leaf
    ∧ forall k i g,
        survivors t groups invert leaf !! k = Some i ->
        inGroup (attributeSet leaf') g k
        = if invert then inGroup (attributeSet leaf) g i
          else if decide (g ∈ groups) then false
               else inGroup (attributeSet leaf) g i.
Proof.
  intros Htwf Hr.
  assert (Hin : leaf ∈ t) by (by eapply list_elem_of_lookup_2).
  destruct (tree_wf_leaf t leaf Htwf Hin) as [Hwf _].
  destruct (deleteFromGroups_leaf t groups invert r leaf Htwf Hr)
    as (leaf' & Hl & _ & Hp & _).
  exists leaf'. split; [done|]. split; [done|].
  rewrite (deleteFromGroups_lookup t groups invert r leaf Hr) in Hl.
  apply (inj Some) in Hl. intros k i g Hk. unfold survivors in Hk.
  assert (Hundeclared : g ∈ groups -> g ∉ resolved t groups ->
            inGroup (attributeSet leaf) g i = false).
  { intros Hg Hout. apply inGroup_undeclared.
    by apply (not_resolved_undeclared t groups leaf g). }
  destruct (decide (resolved t groups = [])) as [Hav|Hav].
  - subst leaf'. apply lookup_seq in Hk as [-> _]. simpl.
    destruct invert; [done|]. case_decide as Hg; [|done].
    apply Hundeclared; [done|]. rewrite Hav. apply not_elem_of_nil.
  - cbv zeta in Hl. destruct invert.
    + subst leaf'. by apply inGroup_compact.
    + subst leaf'. rewrite inGroup_dropGroups.
      rewrite (inGroup_compact _ leaf g k i Hwf Hk).
      destruct (decide (g ∈ resolved t groups)) as [Hres|Hres].
      * rewrite decide_True; [done|].
        by apply elem_of_resolved in Hres as (_ & _ & ? & _).
      * case_decide as Hg; [|done]. by apply Hundeclared.
Qed.

(** X6. A non-inverted deletion is idempotent: the groups it deletes from are
    dropped, so the same call on its result returns at once. *)
Theorem deleteFromGroups_idempotent (t : list Leaf) (groups : list string) :
  deleteFromGroups (deleteFromGroups t groups false) groups false
  = deleteFromGroups t groups false.
Proof.
  apply deleteFromGroups_resolved_nil, resolved_nil_iff.
  intros l0 g Hhd Hg. rewrite head_lookup in Hhd.
  destruct (t !! 0) as [leaf0|] eqn:H0.
  - rewrite (deleteFromGroups_lookup t groups false 0 leaf0 H0) in Hhd.
    apply (inj Some) in Hhd. subst l0.
    assert (Hsame : g ∈ resolved t groups
                    <-> hasGroup (descriptor (attributeSet leaf0)) g = true).
    { rewrite elem_of_resolved. rewrite head_lookup, H0. split.
      - intros (l & Hl & _ & ?). by inversion Hl; subst.
      - intros ?. by exists leaf0. }
    case_decide as Hav.
    + destruct (hasGroup (descriptor (attributeSet leaf0)) g) eqn:Hhas; [|done].
      assert (Hin : g ∈ resolved t groups) by (by apply Hsame).
      rewrite Hav in Hin. by apply not_elem_of_nil in Hin.
    + cbv zeta. unfold hasGroup. apply bool_decide_eq_false_2.
      rewrite Leaf_dropGroups_groupMap, compact_descriptor.
      case_decide as Hres; [by intros [? ?]|].
      intros Hsome. apply Hres, Hsame. unfold hasGroup. by apply bool_decide_eq_true_2.
  - apply lookup_ge_None in H0.
    apply lookup_lt_Some in Hhd.
    rewrite deleteFromGroups_fmap, length_fmap in Hhd. lia.
Qed.

Lemma resolved_same_head t1 t2 groups :
  (descriptor <$> (attributeSet <$> head t1))
  = (descriptor <$> (attributeSet <$> head t2)) ->
  resolved t1 groups = resolved t2 groups.
Proof.
  destruct t1 as [|l1 r1], t2 as [|l2 r2]; simpl; try done.
  intros Heq. by inversion Heq.
Qed.

(** After an inverted deletion the first leaf has the descriptor it had. *)
Lemma resolved_after_inverted t groups gs' :
  resolved (deleteFromGroups t groups true) gs' = resolved t gs'.
Proof.
  apply resolved_same_head. rewrite !head_lookup.
  destruct (t !! 0) as [leaf0|] eqn:H0.
  - rewrite (deleteFromGroups_lookup t groups true 0 leaf0 H0). simpl.
    case_decide; [done|]. by rewrite compact_descriptor.
  - rewrite (lookup_ge_None_2 (deleteFromGroups t groups true) 0); [done|].
    apply lookup_ge_None in H0. by rewrite deleteFromGroups_fmap, length_fmap.
Qed.

(** The points of a compacted leaf, seen through the old leaf. *)
Lemma compact_slot f leaf k :
  leaf_wf leaf = true -> k < pointCount (compact_leaf f leaf) ->
  exists i, beginIndexAll leaf (MultiGroupFilter_valid f (attributeSet leaf)) !! k = Some i
            ∧ i < pointCount leaf
            ∧ MultiGroupFilter_valid f (attributeSet leaf) i = true.
Proof.
  intros Hwf Hk. rewrite compact_pointCount in Hk by done.
  destruct (lookup_lt_is_Some_2 _ _ Hk) as [i Hi]. exists i. split; [done|].
  by apply list_elem_of_lookup_2, elem_of_beginIndexAll in Hi.
Qed.

(** X7. An inverted deletion is idempotent: the points it keeps are in a
    requested group and keep their flags, so the same call keeps them all. *)
Theorem deleteFromGroups_inverted_idempotent (t : list Leaf) (groups : list string) :
  tree_wf t = true ->
  deleteFromGroups (deleteFromGroups t groups true) groups true
  = deleteFromGroups t groups true.
Proof.
  intros Htwf.
  rewrite (deleteFromGroups_fmap (deleteFromGroups t groups true)).
  rewrite resolved_after_inverted.
  destruct (decide (resolved t groups = [])) as [Hav|Hav].
  { rewrite <- (list_fmap_id (deleteFromGroups t groups true)) at 2.
    apply list_fmap_ext. intros _ leaf _. done. }
  rewrite <- (list_fmap_id (deleteFromGroups t groups true)) at 2.
  apply Forall_fmap_ext. rewrite deleteFromGroups_fmap.
  apply Forall_fmap, Forall_forall. intros leaf Hin. simpl.
  rewrite !decide_False by done. cbv zeta.
  destruct (tree_wf_leaf t leaf Htwf Hin) as [Hwf _].
  set (f := DeleteGroupsOp_filter (resolved t groups) true).
  apply compact_leaf_all; [by apply compact_wf|].
  intros k Hk. destruct (compact_slot f leaf k Hwf Hk) as (i & Hi & _ & Hvalid).
  rewrite <- Hvalid. apply valid_congr. intros g. by apply inGroup_compact.
Qed.

(** X8. An inverted deletion followed by the non-inverted deletion of the
    same names leaves no point, provided a requested name is declared: the
    first keeps only members, the second deletes every member. *)
Theorem inverted_then_plain_empties
    (t : list Leaf) (groups : list string) (leaf0 : Leaf) (g : string) (leaf' : Leaf) :
  tree_wf t = true ->
  head t = Some leaf0 -> g ∈ groups ->
  hasGroup (descriptor (attributeSet leaf0)) g = true ->
  leaf' ∈ deleteFromGroups (deleteFromGroups t groups true) groups false ->
  pointCount leaf' = 0.
Proof.
  intros Htwf Hhd Hg Hhas Hin'.
  assert (Hav : resolved t groups ≠ []).
  { intros Hnil. assert (Hmem : g ∈ resolved t groups).
    { apply elem_of_resolved. by exists leaf0. }
    rewrite Hnil in Hmem. by apply not_elem_of_nil in Hmem. }
  rewrite (deleteFromGroups_fmap (deleteFromGroups t groups true)) in Hin'.
  rewrite resolved_after_inverted in Hin'.
  apply list_elem_of_fmap in Hin' as (leaf1 & -> & Hin1).
  rewrite deleteFromGroups_fmap in Hin1.
  apply list_elem_of_fmap in Hin1 as (leaf & -> & Hin).
  rewrite !decide_False by done. cbv zeta.
  destruct (tree_wf_leaf t leaf Htwf Hin) as [Hwf _].
  set (fT := DeleteGroupsOp_filter (resolved t groups) true).
  set (fF := DeleteGroupsOp_filter (resolved t groups) false).
  destruct (Leaf_dropGroups_observe (resolved t groups)
              (compact_leaf fF (compact_leaf fT leaf))) as (-> & _).
  rewrite compact_pointCount by (by apply compact_wf).
  assert (Hnone : beginIndexAll (compact_leaf fT leaf)
            (MultiGroupFilter_valid fF (attributeSet (compact_leaf fT leaf))) = []);
    [|by rewrite Hnone].
  destruct (beginIndexAll _ _) as [|k l] eqn:Hlist; [done|]. exfalso.
  assert (Hk : k ∈ beginIndexAll (compact_leaf fT leaf)
            (MultiGroupFilter_valid fF (attributeSet (compact_leaf fT leaf))))
    by (rewrite Hlist; left).
  apply elem_of_beginIndexAll in Hk as [Hk HvalidF].
  destruct (compact_slot fT leaf k Hwf Hk) as (i & Hi & _ & HvalidT).
  unfold fT in HvalidT. rewrite valid_inverted in HvalidT by done.
  unfold fF in HvalidF. rewrite valid_noninverted in HvalidF.
  rewrite (existsb_pointwise _ (fun g => inGroup (attributeSet leaf) g i)) in HvalidF
    by (intros g'; by apply inGroup_compact).
  rewrite HvalidT in HvalidF. done.
Qed.

(** X9. [deleteFromGroup] when there is nothing to delete: without inversion,
    if no point is in the group, the points stay as they are and only the
    group is dropped, when it was declared; with inversion, if every point is
    in the group, the tree stays as it is. *)
Theorem deleteFromGroup_nothing_to_delete (t : list Leaf) (group : string) :
  tree_wf t = true ->
  ((forall leaf i, leaf ∈ t -> inGroup (attributeSet leaf) group i = false) ->
   deleteFromGroup t group false
   = match head t with
     | Some leaf0 =>
         if hasGroup (descriptor (attributeSet leaf0)) group
         then Leaf_dropGroup group <$> t
         else t
     | None => t
     end)
  ∧ ((forall leaf i, leaf ∈ t -> i < pointCount leaf ->
        inGroup (attributeSet leaf) group i = true) ->
     deleteFromGroup t group true = t).
Proof.
  intros Htwf.
  assert (Hres : resolved t [group]
                 = match head t with
                   | Some leaf0 =>
                       if hasGroup (descriptor (attributeSet leaf0)) group
                       then [group] else []
                   | None => []
                   end).
  { destruct t as [|leaf0 rest]; [done|]. simpl. unfold availableGroups_of. simpl.
    by destruct (hasGroup _ group). }
  unfold deleteFromGroup. split.
  - intros Hnone. rewrite deleteFromGroups_fmap, Hres.
    destruct (head t) as [leaf0|]; [|by apply fmap_id_in].
    destruct (hasGroup (descriptor (attributeSet leaf0)) group);
      [|by apply fmap_id_in].
    apply Forall_fmap_ext, Forall_forall. intros leaf Hin.
    rewrite decide_False by done. cbv zeta.
    destruct (tree_wf_leaf t leaf Htwf Hin) as [Hwf _].
    rewrite compact_leaf_all; [done|done|].
    intros i _. rewrite valid_noninverted. simpl. by rewrite Hnone.
  - intros Hall. rewrite deleteFromGroups_fmap, Hres.
    apply fmap_id_in. intros leaf Hin.
    destruct (head t) as [leaf0|]; [|done].
    destruct (hasGroup (descriptor (attributeSet leaf0)) group); [|done].
    rewrite decide_False by done. cbv zeta.
    destruct (tree_wf_leaf t leaf Htwf Hin) as [Hwf _].
    apply compact_leaf_all; [done|].
    intros i Hi. rewrite valid_inverted by done. simpl. by rewrite Hall.
Qed.

End Repetition.

(** ** Two filters in a row *)

Section FilterComposition.
Context `{LeafTraits}.

Lemma leaf_eq (l1 l2 : Leaf) :
  groupMap (descriptor (attributeSet l1)) = groupMap (descriptor (attributeSet l2)) ->
  arrays (attributeSet l1) = arrays (attributeSet l2) ->
  offsets l1 = offsets l2 -> l1 = l2.
Proof.
  destruct l1 as [[[m1] a1] o1], l2 as [[[m2] a2] o2]. simpl. by intros -> -> ->.
Qed.

(** Filtering a list by a predicate on its values is filtering its positions
    by the matching predicate on positions. *)
Lemma filter_by_position (l : list nat) (byPos byVal : nat -> bool) :
  (forall k i, l !! k = Some i -> byPos k = byVal i) ->
  filter (fun i => byVal i) l
  = (fun k => default 0 (l !! k)) <$> filter (fun k => byPos k) (seq 0 (length l)).
Proof.
  induction l as [|a l IH] using rev_ind; intros Hsame; [done|].
  rewrite length_app. simpl. rewrite Nat.add_1_r, seq_S, !filter_app, fmap_app.
  f_equal.
  - rewrite IH by (intros k i Hk; apply Hsame; by rewrite lookup_app_l
                     by (by eapply lookup_lt_Some)).
    apply Forall_fmap_ext, Forall_forall. intros k Hk. simpl.
    apply list_elem_of_filter in Hk as [_ Hk]. apply elem_of_seq in Hk.
    by rewrite lookup_app_l by lia.
  - simpl. rewrite !filter_cons, !filter_nil.
    assert (Hlast : (l ++ [a]) !! length l = Some a).
    { rewrite lookup_app_r by lia. by rewrite Nat.sub_diag. }
    rewrite (Hsame (length l) a Hlast).
    destruct (byVal a); simpl; [|done]. by rewrite Hlast.
Qed.

Lemma filter_stronger (l : list nat) (strong weak : nat -> bool) :
  (forall i, strong i = true -> weak i = true) ->
  filter (fun i => strong i) (filter (fun i => weak i) l) = filter (fun i => strong i) l.
Proof.
  intros Himp. induction l as [|a l IH]; [done|].
  rewrite (filter_cons (fun i => weak i)), (filter_cons (fun i => strong i)).
  destruct (decide (weak a)) as [Hw|Hw].
  - rewrite filter_cons. by rewrite IH.
  - rewrite IH. destruct (decide (strong a)) as [Hs|Hs]; [|done].
    destruct Hw. apply Is_true_true, Himp. by apply Is_true_true.
Qed.

Section TwoFilters.
Variables (n : nat) (valid1 valid2 validR : nat -> bool).
Hypothesis validR_valid1 : forall i, validR i = true -> valid1 i = true.
Hypothesis valid2_validR : forall k i,
  filter (fun i => valid1 i) (seq 0 n) !! k = Some i -> valid2 k = validR i.

Lemma prefix_lookup x k i :
  x ≤ n -> filter (fun i => valid1 i) (seq 0 x) !! k = Some i ->
  filter (fun i => valid1 i) (seq 0 n) !! k = Some i.
Proof.
  intros Hx Hk. rewrite (filter_seq_0_app _ x n) by done.
  by apply lookup_app_l_Some.
Qed.

(** The survivors of the second filter, taken among the survivors of the
    first, are the survivors of the combined filter. *)
Lemma two_filters_prefix x :
  x ≤ n ->
  filter (fun i => validR i) (seq 0 x)
  = (fun k => default 0 (filter (fun i => valid1 i) (seq 0 n) !! k))
      <$> filter (fun k => valid2 k) (seq 0 (survivors_below valid1 x)).
Proof.
  intros Hx.
  rewrite <- (filter_stronger (seq 0 x) validR valid1) by done.
  rewrite (filter_by_position _ valid2 validR)
    by (intros k i Hk; apply valid2_validR; by apply (prefix_lookup x)).
  apply Forall_fmap_ext, Forall_forall. intros k Hk. simpl.
  apply list_elem_of_filter in Hk as [_ Hk]. apply elem_of_seq in Hk.
  unfold survivors_below in Hk.
  rewrite (filter_seq_0_app _ x n) by done.
  by rewrite lookup_app_l by lia.
Qed.

Lemma two_filters_count x :
  x ≤ n ->
  survivors_below valid2 (survivors_below valid1 x) = survivors_below validR x.
Proof.
  intros Hx. unfold survivors_below at 3.
  rewrite two_filters_prefix by done. by rewrite length_fmap.
Qed.

End TwoFilters.

Lemma gather_gather src σ1 σ2 :
  (forall k, k ∈ σ2 -> k < length σ1) ->
  gather (gather src σ1) σ2 = gather src ((fun k => default 0 (σ1 !! k)) <$> σ2).
Proof.
  intros Hin. unfold gather at 1 3. rewrite <- list_fmap_compose.
  apply Forall_fmap_ext, Forall_forall. intros k Hk. simpl.
  destruct (lookup_lt_is_Some_2 σ1 k (Hin k Hk)) as [i Hi].
  by rewrite (gather_lookup src σ1 k i Hi), Hi.
Qed.

End FilterComposition.

Section LeafSequence.
Context `{LeafTraits}.

Lemma compact_leaf_skip f leaf : pointCount leaf = 0 -> compact_leaf f leaf = leaf.
Proof. intros Hz. unfold compact_leaf. by rewrite body_skip. Qed.

Lemma compact_leaf_clear f leaf :
  pointCount leaf ≠ 0 ->
  beginIndexAll leaf (MultiGroupFilter_valid f (attributeSet leaf)) = [] ->
  compact_leaf f leaf = clearAttributes leaf.
Proof. intros Hnz Hnil. unfold compact_leaf. by rewrite body_clear. Qed.

Lemma compact_leaf_rebuilt f leaf :
  leaf_wf leaf = true ->
  beginIndexAll leaf (MultiGroupFilter_valid f (attributeSet leaf)) ≠ [] ->
  compact_leaf f leaf = rebuilt_leaf leaf (MultiGroupFilter_valid f (attributeSet leaf)).
Proof.
  intros Hwf Hsome.
  assert (Hnz : pointCount leaf ≠ 0).
  { intros Hz. by rewrite (beginIndexAll_empty leaf _ Hz) in Hsome. }
  unfold compact_leaf. by rewrite body_rebuild.
Qed.

Lemma Leaf_dropGroups_wf gs leaf :
  leaf_wf leaf = true -> leaf_wf (Leaf_dropGroups gs leaf) = true.
Proof. intros Hwf. by destruct (Leaf_dropGroups_observe gs leaf) as (_ & _ & _ & ->). Qed.

Lemma Leaf_dropGroups_getOffset gs leaf v :
  getOffset (Leaf_dropGroups gs leaf) v = getOffset leaf v.
Proof. unfold getOffset. by destruct (Leaf_dropGroups_arrays gs leaf) as [_ ->]. Qed.

(** Compacting for the names [R1], dropping them, and compacting for the
    names [R2] builds the store and the table that compacting once for all
    the names builds. *)
Lemma compact_twice R1 R2 R leaf :
  leaf_wf leaf = true ->
  (forall g, g ∈ R <-> g ∈ R1 ∨ g ∈ R2) ->
  let leaf1 := Leaf_dropGroups R1 (compact_leaf (DeleteGroupsOp_filter R1 false) leaf) in
  arrays (attributeSet (compact_leaf (DeleteGroupsOp_filter R2 false) leaf1))
  = arrays (attributeSet (compact_leaf (DeleteGroupsOp_filter R false) leaf))
  ∧ offsets (compact_leaf (DeleteGroupsOp_filter R2 false) leaf1)
    = offsets (compact_leaf (DeleteGroupsOp_filter R false) leaf).
Proof.
  intros Hwf HR leaf1.
  set (f1 := DeleteGroupsOp_filter R1 false) in *.
  set (f2 := DeleteGroupsOp_filter R2 false).
  set (fR := DeleteGroupsOp_filter R false).
  set (valid1 := MultiGroupFilter_valid f1 (attributeSet leaf)).
  set (valid2 := MultiGroupFilter_valid f2 (attributeSet leaf1)).
  set (validR := MultiGroupFilter_valid fR (attributeSet leaf)).
  destruct (leaf_wf_unfold _ Hwf) as (_ & Hs & _ & _).
  assert (Hwf1 : leaf_wf leaf1 = true) by (by apply Leaf_dropGroups_wf, compact_wf).
  assert (Hcount1 : pointCount leaf1 = length (beginIndexAll leaf valid1)).
  { unfold leaf1. destruct (Leaf_dropGroups_observe R1 (compact_leaf f1 leaf)) as (-> & _).
    by apply compact_pointCount. }
  assert (HR1 : forall i, validR i = true -> valid1 i = true).
  { intros i. unfold validR, valid1, fR, f1. rewrite !valid_noninverted, !negb_true_iff.
    rewrite !existsb_false_iff. intros Hno g Hg. apply Hno, HR. by left. }
  assert (H2R : forall k i, beginIndexAll leaf valid1 !! k = Some i ->
                  valid2 k = validR i).
  { intros k i Hk.
    assert (Hv1 : valid1 i = true)
      by (by apply list_elem_of_lookup_2, elem_of_beginIndexAll in Hk as [_ ?]).
    unfold valid1, f1 in Hv1. rewrite valid_noninverted, negb_true_iff in Hv1.
    pose proof (proj1 (existsb_false_iff _ _) Hv1) as Hno1.
    assert (Hflag : forall g, inGroup (attributeSet leaf1) g k
                              = if decide (g ∈ R1) then false
                                else inGroup (attributeSet leaf) g i).
    { intros g. unfold leaf1. rewrite inGroup_dropGroups.
      case_decide; [done|]. by apply inGroup_compact. }
    unfold valid2, validR, f2, fR. rewrite !valid_noninverted. f_equal.
    destruct (existsb (fun g => inGroup (attributeSet leaf) g i) R) eqn:HeR.
    - apply existsb_true_iff in HeR as (g & Hg & Hin).
      apply existsb_true_iff. exists g. apply HR in Hg as [Hg|Hg].
      + by rewrite (Hno1 g Hg) in Hin.
      + split; [done|]. rewrite Hflag. case_decide as Hg1; [|done].
        by rewrite (Hno1 g Hg1) in Hin.
    - apply existsb_false_iff. intros g Hg. rewrite Hflag. case_decide; [done|].
      apply (proj1 (existsb_false_iff _ _) HeR). apply HR. by right. }
  assert (Hσ : beginIndexAll leaf validR
               = (fun k => default 0 (beginIndexAll leaf valid1 !! k))
                   <$> beginIndexAll leaf1 valid2).
  { assert (Hlast1 : lastOffset leaf1 = survivors_below valid1 (lastOffset leaf))
      by (by rewrite <- pointCount_lastOffset, Hcount1).
    unfold beginIndexAll. rewrite Hlast1.
    by apply (two_filters_prefix (lastOffset leaf) valid1 valid2 validR HR1 H2R). }
  destruct (decide (pointCount leaf = 0)) as [Hz|Hnz].
  { unfold leaf1. rewrite (compact_leaf_skip f1 leaf Hz), (compact_leaf_skip fR leaf Hz).
    rewrite compact_leaf_skip.
    - destruct (Leaf_dropGroups_arrays R1 leaf) as [-> ->]. done.
    - destruct (Leaf_dropGroups_observe R1 leaf) as (-> & _). done. }
  destruct (decide (beginIndexAll leaf1 valid2 = [])) as [Hnil2|Hsome2].
  { rewrite Hnil2 in Hσ. simpl in Hσ.
    rewrite (compact_leaf_clear fR leaf Hnz Hσ).
    destruct (decide (pointCount leaf1 = 0)) as [Hz1|Hnz1].
    - rewrite (compact_leaf_skip f2 leaf1 Hz1).
      assert (Hnil1 : beginIndexAll leaf valid1 = [])
        by (apply nil_length_inv; by rewrite <- Hcount1).
      unfold leaf1. rewrite (compact_leaf_clear f1 leaf Hnz Hnil1).
      destruct (Leaf_dropGroups_arrays R1 (clearAttributes leaf)) as [-> ->]. done.
    - by rewrite (compact_leaf_clear f2 leaf1 Hnz1 Hnil2). }
  assert (HsomeR : beginIndexAll leaf validR ≠ []).
  { rewrite Hσ. intros Hnil. apply fmap_nil_inv in Hnil. done. }
  assert (Hsome1 : beginIndexAll leaf valid1 ≠ []).
  { intros Hnil. rewrite Hnil in Hcount1. simpl in Hcount1.
    by rewrite (beginIndexAll_empty leaf1 valid2 Hcount1) in Hsome2. }
  rewrite (compact_leaf_rebuilt f2 leaf1 Hwf1 Hsome2).
  rewrite (compact_leaf_rebuilt fR leaf Hwf HsomeR).
  fold valid2 validR.
  assert (Hleaf1 : arrays (attributeSet leaf1)
                   = (fun src => gather src (beginIndexAll leaf valid1))
                       <$> arrays (attributeSet leaf)
                   ∧ forall v, v < NUM_VALUES ->
                       getOffset leaf1 v = survivors_below valid1 (getOffset leaf v)).
  { unfold leaf1. destruct (Leaf_dropGroups_arrays R1 (compact_leaf f1 leaf)) as [-> _].
    split.
    - by rewrite (compact_leaf_rebuilt f1 leaf Hwf Hsome1).
    - intros v Hv. rewrite Leaf_dropGroups_getOffset.
      rewrite (compact_leaf_rebuilt f1 leaf Hwf Hsome1). by apply getOffset_rebuilt. }
  destruct Hleaf1 as [Harr1 Hoff1]. split.
  - unfold rebuilt_leaf. cbn [attributeSet arrays]. rewrite Harr1.
    rewrite <- list_fmap_compose. apply list_fmap_ext. intros _ src _. simpl.
    rewrite Hσ. apply gather_gather. intros k Hk.
    apply elem_of_beginIndexAll in Hk as [Hk _]. by rewrite <- Hcount1.
  - unfold rebuilt_leaf. cbn [offsets]. apply list_fmap_ext. intros j v Hv.
    apply lookup_seq in Hv as [-> Hv]. simpl.
    rewrite (Hoff1 j Hv).
    apply (two_filters_count (lastOffset leaf) valid1 valid2 validR HR1 H2R).
    by apply getOffset_le_last.
Qed.

End LeafSequence.

(** ** Deletions in sequence *)

Section CallSequence.
Context `{LeafTraits}.

Lemma resolved_app t gs1 gs2 :
  resolved t (gs1 ++ gs2) = resolved t gs1 ++ resolved t gs2.
Proof.
  destruct t as [|leaf0 rest]; [done|]. simpl.
  by rewrite !availableGroups_of_filter, filter_app.
Qed.

(** The names still declared after a non-inverted deletion. *)
Lemma elem_of_resolved_after_plain t gs1 gs2 g :
  g ∈ resolved (deleteFromGroups t gs1 false) gs2
  <-> g ∈ resolved t gs2 ∧ g ∉ resolved t gs1.
Proof.
  rewrite (elem_of_resolved (deleteFromGroups t gs1 false) gs2 g).
  rewrite (elem_of_resolved t gs2 g), !head_lookup.
  destruct (t !! 0) as [leaf0|] eqn:H0.
  - rewrite (deleteFromGroups_lookup t gs1 false 0 leaf0 H0).
    assert (Hhas :
      hasGroup (descriptor (attributeSet
        (if decide (resolved t gs1 = []) then leaf0
         else Leaf_dropGroups (resolved t gs1)
                (compact_leaf (DeleteGroupsOp_filter (resolved t gs1) false) leaf0)))) g
      = true
      <-> hasGroup (descriptor (attributeSet leaf0)) g = true ∧ g ∉ resolved t gs1).
    { case_decide as Hav.
      - rewrite Hav. split; [intros ?; split; [done|apply not_elem_of_nil]|by intros [? _]].
      - unfold hasGroup. rewrite !bool_decide_eq_true.
        rewrite Leaf_dropGroups_groupMap, compact_descriptor.
        case_decide; split; try tauto. by intros [? ?]. }
    split.
    + intros (l & Hl & Hg & Hd). apply (inj Some) in Hl. subst l.
      apply Hhas in Hd as [Hd Hout]. split; [|done]. by exists leaf0.
    + intros [(l & Hl & Hg & Hd) Hout]. apply (inj Some) in Hl. subst l.
      eexists. split; [reflexivity|]. split; [done|]. by apply Hhas.
  - rewrite (lookup_ge_None_2 (deleteFromGroups t gs1 false) 0)
      by (apply lookup_ge_None in H0; by rewrite deleteFromGroups_fmap, length_fmap).
    split; [by intros (? & ? & _)|by intros [(? & ? & _) _]].
Qed.

(** On a well-formed leaf the early exit for an empty list of names does what
    the general path would do. *)
Lemma plain_step_uniform names leaf :
  leaf_wf leaf = true ->
  (if decide (names = []) then leaf
   else Leaf_dropGroups names (compact_leaf (DeleteGroupsOp_filter names false) leaf))
  = Leaf_dropGroups names (compact_leaf (DeleteGroupsOp_filter names false) leaf).
Proof.
  intros Hwf. case_decide as Hnil; [|done]. subst names.
  by rewrite compact_leaf_all by done.
Qed.

(** X10. Non-inverted deletions compose: deleting from the names [groups1]
    and then from the names [groups2] leaves the tree that one call with all
    the names leaves. *)
Theorem deleteFromGroups_sequential (t : list Leaf) (groups1 groups2 : list string) :
  tree_wf t = true ->
  deleteFromGroups (deleteFromGroups t groups1 false) groups2 false
  = deleteFromGroups t (groups1 ++ groups2) false.
Proof.
  intros Htwf.
  rewrite (deleteFromGroups_fmap (deleteFromGroups t groups1 false)).
  rewrite (deleteFromGroups_fmap t (groups1 ++ groups2)), resolved_app.
  set (R1 := resolved t groups1). set (R2 := resolved t groups2).
  set (R2' := resolved (deleteFromGroups t groups1 false) groups2).
  assert (HR : forall g, g ∈ R1 ++ R2 <-> g ∈ R1 ∨ g ∈ R2').
  { intros g. unfold R2'. rewrite elem_of_app, elem_of_resolved_after_plain.
    fold R1 R2. destruct (decide (g ∈ R1)); tauto. }
  rewrite deleteFromGroups_fmap. fold R1. rewrite <- list_fmap_compose.
  apply Forall_fmap_ext, Forall_forall. intros leaf Hin. unfold compose. cbv beta zeta.
  destruct (tree_wf_leaf t leaf Htwf Hin) as [Hwf _].
  rewrite (plain_step_uniform R1 leaf Hwf).
  rewrite (plain_step_uniform R2') by (by apply Leaf_dropGroups_wf, compact_wf).
  rewrite (plain_step_uniform (R1 ++ R2) leaf Hwf).
  destruct (compact_twice R1 R2' (R1 ++ R2) leaf Hwf HR) as [Harr Hoff].
  apply leaf_eq.
  - apply map_eq. intros g.
    rewrite !Leaf_dropGroups_groupMap, !compact_descriptor, Leaf_dropGroups_groupMap,
      compact_descriptor.
    specialize (HR g).
    destruct (decide (g ∈ R2')), (decide (g ∈ R1)), (decide (g ∈ R1 ++ R2)); tauto.
  - destruct (Leaf_dropGroups_arrays R2'
                (compact_leaf (DeleteGroupsOp_filter R2' false)
                   (Leaf_dropGroups R1
                      (compact_leaf (DeleteGroupsOp_filter R1 false) leaf)))) as [-> _].
    destruct (Leaf_dropGroups_arrays (R1 ++ R2)
                (compact_leaf (DeleteGroupsOp_filter (R1 ++ R2) false) leaf)) as [-> _].
    exact Harr.
  - destruct (Leaf_dropGroups_arrays R2'
                (compact_leaf (DeleteGroupsOp_filter R2' false)
                   (Leaf_dropGroups R1
                      (compact_leaf (DeleteGroupsOp_filter R1 false) leaf)))) as [_ ->].
    destruct (Leaf_dropGroups_arrays (R1 ++ R2)
                (compact_leaf (DeleteGroupsOp_filter (R1 ++ R2) false) leaf)) as [_ ->].
    exact Hoff.
Qed.

End CallSequence.

(** ** Layout, and the names as a set *)

Section Layout.
Context `{LeafTraits}.

(** X11. A deletion never adds a point, and a leaf that keeps points keeps
    its column layout: the new store has as many attribute arrays as the old
    one. *)
Theorem deletion_keeps_layout
    (t : list Leaf) (groups : list string) (invert : bool) (r : nat) (leaf : Leaf) :
  tree_wf t = true ->
  t !! r = Some leaf ->
  exists leaf',
    deleteFromGroups t groups invert !! r = Some leaf'
    ∧ pointCount leaf' ≤ pointCount leaf
    ∧ (pointCount leaf' ≠ 0 ->
       length (arrays (attributeSet leaf')) = length (arrays (attributeSet leaf))).
Proof.
  intros Htwf Hr.
  assert (Hin : leaf ∈ t) by (by eapply list_elem_of_lookup_2).
  destruct (tree_wf_leaf t leaf Htwf Hin) as [Hwf _].
  eexists. split; [by apply deleteFromGroups_lookup|].
  case_decide as Hav; [done|]. cbv zeta.
  set (f := DeleteGroupsOp_filter (resolved t groups) invert).
  assert (Hgoal : pointCount (compact_leaf f leaf) ≤ pointCount leaf
            ∧ (pointCount (compact_leaf f leaf) ≠ 0 ->
               length (arrays (attributeSet (compact_leaf f leaf)))
               = length (arrays (attributeSet leaf)))).
  { split.
    - rewrite compact_pointCount by done. rewrite pointCount_lastOffset.
      unfold beginIndexAll.
      pose proof (length_filter
        (fun i => MultiGroupFilter_valid f (attributeSet leaf) i)
        (seq 0 (lastOffset leaf))) as Hle.
      by rewrite length_seq in Hle.
    - intros Hnz.
      destruct (compact_leaf_cases f leaf Hwf)
        as [[Hz Hc] | [(_ & Hnil & Hc) | (_ & Hsome & HN & Hc)]]; rewrite Hc in Hnz |- *.
      + done.
      + by rewrite pointCount_clear in Hnz.
      + unfold rebuilt_leaf. simpl. by rewrite length_fmap. }
  destruct invert; [exact Hgoal|].
  destruct (Leaf_dropGroups_observe (resolved t groups) (compact_leaf f leaf))
    as (-> & _).
  by destruct (Leaf_dropGroups_arrays (resolved t groups) (compact_leaf f leaf))
    as [-> _].
Qed.

Lemma resolved_equivalent t groups groups' :
  (forall g, g ∈ groups <-> g ∈ groups') ->
  forall g, g ∈ resolved t groups <-> g ∈ resolved t groups'.
Proof.
  intros Hsame g. rewrite !elem_of_resolved.
  split; intros (l & ? & ? & ?); exists l; by rewrite ?Hsame in *.
Qed.

(** X12. The requested names act as a set: two lists with the same names, in
    any order and with any repetitions, leave the same tree. *)
Theorem deleteFromGroups_names_as_set
    (t : list Leaf) (groups groups' : list string) (invert : bool) :
  (forall g, g ∈ groups <-> g ∈ groups') ->
  deleteFromGroups t groups invert = deleteFromGroups t groups' invert.
Proof.
  intros Hnames. rewrite !deleteFromGroups_fmap.
  pose proof (resolved_equivalent t groups groups' Hnames) as Hsame.
  apply list_fmap_ext. intros _ leaf _.
  destruct (decide (resolved t groups = [])) as [Hnil|Hsome].
  - rewrite decide_True; [done|]. by apply (same_elements_nil _ _ Hsame).
  - rewrite decide_False by (by rewrite <- (same_elements_nil _ _ Hsame)).
    cbv zeta.
    assert (Hc : compact_leaf (DeleteGroupsOp_filter (resolved t groups) invert) leaf
                 = compact_leaf (DeleteGroupsOp_filter (resolved t groups') invert) leaf).
    { unfold compact_leaf.
      rewrite (DeleteGroupsOp_body_ext
                 (DeleteGroupsOp_filter (resolved t groups) invert)
                 (DeleteGroupsOp_filter (resolved t groups') invert)); [done|].
      intros i. by apply valid_same_elements. }
    rewrite Hc. destruct invert; [done|].
    by apply Leaf_dropGroups_same_elements.
Qed.

End Layout.

(** ** The further properties on the instances *)

Section DemoFurther.
Import Demo DemoGroups.
Local Existing Instance traits.
Local Open Scope string_scope.

(** Deleting from A and then from B, or from both at once: one point of the
    first leaf survives, the second leaf is emptied. *)
Example sequential_on_tree2 :
  deleteFromGroups tree2 ["A"; "B"] false
  = [ {| attributeSet :=
           {| descriptor := {| groupMap := {[ "C" := 3 ]} |};
              arrays := [[11]; [0]; [0]; [0]]%Z |};
         offsets := [0; 0; 1; 1] |};
      {| attributeSet := {| descriptor := {| groupMap := {[ "C" := 3 ]} |};
                            arrays := [] |};
         offsets := [] |} ].
Proof. reflexivity. Qed.

Lemma deleteFromGroups_metadata_frame_witness :
  length (deleteFromGroups tree2 ["A"] false) = 2
  ∧ exists leaf',
      deleteFromGroups tree2 ["A"] false !! 0 = Some leaf'
      ∧ groupMap (descriptor (attributeSet leaf')) !! "B" = Some 2.
Proof.
  destruct (deleteFromGroups_metadata_frame tree2 ["A"] false 0 leafAB)
    as (Hlen & leaf' & Hl & Hframe & _); [reflexivity|].
  split; [exact Hlen|]. exists leaf'. split; [exact Hl|].
  rewrite (Hframe "B"); [reflexivity|].
  intros Hin. apply list_elem_of_singleton in Hin. discriminate.
Defined.

Lemma deletions_keep_invariants_witness :
  tree_wf (deleteFromGroups (deleteFromGroups tree2 ["A"] true) ["B"; "C"] false) = true.
Proof.
  apply (deletions_keep_invariants tree2 [(["A"], true); (["B"; "C"], false)]).
  reflexivity.
Defined.

Lemma copy_loop_in_bounds_witness :
  attributeIndex
    (rebuild leafAB
       (MultiGroupFilter_valid (DeleteGroupsOp_filter ["A"] false) (attributeSet leafAB))
       2) = 2.
Proof.
  destruct (copy_loop_in_bounds leafAB
              (MultiGroupFilter_valid (DeleteGroupsOp_filter ["A"] false)
                 (attributeSet leafAB)))
    as (_ & Hend & _); [reflexivity|reflexivity|].
  exact Hend.
Defined.

Lemma all_survive_rebuild_identity_witness :
  DeleteGroupsOp_body (DeleteGroupsOp_filter ["C"] false) leafAB
  = [ReplaceAttributeSet (attributeSet leafAB); SetOffsets (offsets leafAB)].
Proof.
  apply (all_survive_rebuild_identity (DeleteGroupsOp_filter ["C"] false) leafAB).
  - reflexivity.
  - vm_compute. discriminate.
  - intros i _. destruct i as [|[|[|[|i]]]]; reflexivity.
Defined.

Lemma survivors_keep_membership_witness :
  exists leaf',
    deleteFromGroups tree2 ["A"] false !! 0 = Some leaf'
    ∧ inGroup (attributeSet leaf') "B" 1 = true
    ∧ inGroup (attributeSet leaf') "A" 1 = false.
Proof.
  destruct (survivors_keep_membership tree2 ["A"] false 0 leafAB)
    as (leaf' & Hl & _ & Hflags); [reflexivity|reflexivity|].
  exists leaf'. split; [exact Hl|]. split.
  - rewrite (Hflags 1 3 "B"); reflexivity.
  - rewrite (Hflags 1 3 "A"); reflexivity.
Defined.

Lemma deleteFromGroups_inverted_idempotent_witness :
  deleteFromGroups (deleteFromGroups tree2 ["B"] true) ["B"] true
  = deleteFromGroups tree2 ["B"] true.
Proof. apply (deleteFromGroups_inverted_idempotent tree2 ["B"]). reflexivity. Defined.

Lemma inverted_then_plain_empties_witness :
  Forall (fun leaf => pointCount leaf = 0)
         (deleteFromGroups (deleteFromGroups tree2 ["B"] true) ["B"] false).
Proof.
  apply Forall_forall. intros leaf' Hin.
  apply (inverted_then_plain_empties tree2 ["B"] leafAB "B" leaf');
    [reflexivity|reflexivity|left|reflexivity|exact Hin].
Defined.

Lemma deleteFromGroup_nothing_to_delete_witness :
  deleteFromGroup tree2 "C" false = Leaf_dropGroup "C" <$> tree2.
Proof.
  destruct (deleteFromGroup_nothing_to_delete tree2 "C") as [Hplain _]; [reflexivity|].
  apply Hplain. intros leaf i Hin. unfold tree2 in Hin.
  apply elem_of_cons in Hin as [->|Hin].
  { destruct i as [|[|[|[|i]]]]; reflexivity. }
  apply list_elem_of_singleton in Hin. subst leaf.
  destruct i as [|[|i]]; reflexivity.
Defined.

Lemma deleteFromGroups_sequential_witness :
  deleteFromGroups (deleteFromGroups tree2 ["A"] false) ["B"] false
  = deleteFromGroups tree2 (["A"] ++ ["B"]) false.
Proof. apply (deleteFromGroups_sequential tree2 ["A"] ["B"]). reflexivity. Defined.

Lemma deletion_keeps_layout_witness :
  exists leaf',
    deleteFromGroups tree2 ["A"] false !! 0 = Some leaf'
    ∧ (pointCount leaf' ≤ 4)%nat.
Proof.
  destruct (deletion_keeps_layout tree2 ["A"] false 0 leafAB)
    as (leaf' & Hl & Hle & _); [reflexivity|reflexivity|].
  exists leaf'. split; [exact Hl|exact Hle].
Defined.

Lemma deleteFromGroups_names_as_set_witness :
  deleteFromGroups tree2 ["A"; "B"] false = deleteFromGroups tree2 ["B"; "A"; "A"] false.
Proof.
  apply (deleteFromGroups_names_as_set tree2 ["A"; "B"] ["B"; "A"; "A"] false).
  intros g. rewrite !elem_of_cons, !elem_of_nil. tauto.
Defined.

End DemoFurther.
